(** * game_theory_duel: the match and tournament engine, verified

    A shallow embedding of [config.py], [agent.py], [match.py] and
    [tournament.py].  Python integers are [Z], Python strings are [string],
    Python lists are [list], a [dict] keyed by strings whose order does not
    matter is a [gmap], and a raised exception is the [Raise] outcome of
    the [py] result type.  Logging calls have no effect on the values
    computed; the text of a log line is modelled where building it can
    raise, which is the closing line of [Match.run]. *)

From Stdlib Require Import ZArith QArith DecimalString.
From stdpp Require Import gmap strings list sorting.

Local Open Scope Z_scope.

(** ** Python outcomes *)

(** The exceptions the modelled code can raise. *)
Inductive exn : Type :=
  | ValueError
  | AttributeError
  | TypeError
  | IndexError
  | ZeroDivisionError
  | KeyError
  | OverflowError.

(** A Python call either returns a value or raises. *)
Inductive py (A : Type) : Type :=
  | Return (a : A)
  | Raise (e : exn).
Arguments Return {A} a.
Arguments Raise {A} e.

Definition returns {A} (r : py A) : Prop := ∃ a, r = Return a.
Definition raises {A} (r : py A) : Prop := ∃ e, r = Raise e.

(** ** config.py *)

Module Config.

Record GameConfig : Type := mkGameConfig {
  beat : Z;
  wwin : Z;
  llost : Z;
  beaten : Z;
  rounds_per_match : Z;
  num_matches : Z
}.

(** [GameConfig.__init__]: the chained comparison
    [beat > wwin > llost >= beaten] is the conjunction of its three links. *)
Definition init (beat wwin llost beaten rounds_per_match num_matches : Z)
  : py GameConfig :=
  if negb ((beat >? wwin) && (wwin >? llost) && (llost >=? beaten)) then
    Raise ValueError
  else if (rounds_per_match <=? 0) || (num_matches <=? 0) then
    Raise ValueError
  else
    Return (mkGameConfig beat wwin llost beaten rounds_per_match num_matches).

(** A configuration that [init] produced. *)
Definition valid (c : GameConfig) : Prop :=
  init (beat c) (wwin c) (llost c) (beaten c)
       (rounds_per_match c) (num_matches c) = Return c.

End Config.

Import Config.

(** ** Loops *)

(** [for x in xs: body], where the body may raise: the loop stops at the
    first iteration that raises and keeps the state reached there
    (Python does not undo the mutations made before an exception). *)
Fixpoint for_each {X S : Type} (xs : list X)
    (body : X → S → S * option exn) (s : S) : S * option exn :=
  match xs with
  | [] => (s, None)
  | x :: xs' =>
      match body x s with
      | (s', None) => for_each xs' body s'
      | (s', Some e) => (s', Some e)
      end
  end.

(** [range(n)]: empty when [n <= 0]. *)
Definition range (n : Z) : list nat := seq 0 (Z.to_nat n).

(** ** agent.py: the decision interface *)

(** An action is a Python string; the engine accepts two of them. *)
Definition action : Type := string.

Definition is_valid (a : action) : bool :=
  bool_decide (a ∈ ["beat"; "still"]).

(** An agent is an object with a [name] and two methods.  The mutable state
    of all agents taking part (and of the shared random source) is the world
    [W]; [decide] reads the two histories and may update the world, [reset]
    updates the world.  [decide] is a total function that returns some
    string; the histories are passed for reading. *)
Record Agent (W : Type) : Type := mkAgent {
  name : string;
  decide : list action → list action → W → action * W;
  reset : W → W
}.
Arguments mkAgent {W} name decide reset.
Arguments name {W} a.
Arguments decide {W} a history_self history_opponent w.
Arguments reset {W} a w.

Definition set_name {W} (a : Agent W) (n : string) : Agent W :=
  mkAgent n (decide a) (reset a).

(** ** match.py *)

Module MatchResult.

Record t : Type := mk {
  scores_a : list Z;
  scores_b : list Z;
  histories_a : list (list action);
  histories_b : list (list action)
}.

(** [MatchResult.__init__] *)
Definition init : t := mk [] [] [] [].

(** [MatchResult.add_match] *)
Definition add_match (r : t) (score_a score_b : Z)
    (history_a history_b : list action) : t :=
  mk (scores_a r ++ [score_a]) (scores_b r ++ [score_b])
     (histories_a r ++ [history_a]) (histories_b r ++ [history_b]).

(** Python primitives that raise on the inputs the accessors guard against. *)
Definition py_sum (l : list Z) : Z := foldr Z.add 0 l.

(** [num / den] rounded to the nearest integer, a tie to the even one
    ([0 <= num], [0 < den]). *)
Definition round_half_even (num den : Z) : Z :=
  let q := num `div` den in
  let r := num `mod` den in
  if 2 * r <? den then q
  else if den <? 2 * r then q + 1
  else if Z.even q then q else q + 1.

(** The double nearest to [n / d] ([0 < n], [0 < d]), as the rational it
    is: with [2^e <= n / d < 2^(e + 1)] the quotient is rounded to a
    multiple of [2^(e - 52)], and to a multiple of [2^(-1074)] in the
    subnormal range. *)
Definition float_of_ratio (n d : Z) : Q :=
  let k := Z.log2 n - Z.log2 d in
  let e :=
    if (if 0 <=? k then d * 2 ^ k <=? n else d <=? n * 2 ^ (- k))
    then k else k - 1 in
  let u := Z.max (e - 52) (-1074) in
  if 0 <=? u then Qmake (round_half_even n (d * 2 ^ u) * 2 ^ u) 1
  else Qmake (round_half_even (n * 2 ^ (- u)) d) (Z.to_pos (2 ^ (- u))).

(** The least magnitude that rounds beyond the largest double: halfway
    between the largest double [2^1024 - 2^971] and [2^1024]. *)
Definition float_overflow : Z := 2 ^ 1024 - 2 ^ 970.

(** [a / b] of two integers: the quotient rounded to a double, and
    [OverflowError] when it is too large for one. *)
Definition py_truediv (a b : Z) : py Q :=
  if b =? 0 then Raise ZeroDivisionError
  else if float_overflow * Z.abs b <=? Z.abs a then Raise OverflowError
  else if a =? 0 then Return (Qmake 0 1)
  else
    let x := float_of_ratio (Z.abs a) (Z.abs b) in
    Return (if Z.sgn a * Z.sgn b <? 0 then (- x)%Q else x).

Definition py_min (l : list Z) : py Z :=
  match l with
  | [] => Raise ValueError
  | x :: l' => Return (foldr Z.min x l')
  end.

Definition py_index {A} (l : list A) (i : Z) : py A :=
  let n := Z.of_nat (length l) in
  let j := if i <? 0 then i + n else i in
  if (j <? 0) || (n <=? j) then Raise IndexError
  else match l !! Z.to_nat j with
       | Some x => Return x
       | None => Raise IndexError
       end.

Definition sorted (l : list Z) : list Z := merge_sort Z.le l.

(** A Python number: the accessors return the integer [0] on an empty
    record, an element of the list, or the quotient of a true division. *)
Definition of_int (z : Z) : Q := Qmake z 1.

(** [x if l else 0], for a computation [x] that may raise. *)
Definition if_nonempty {A B} (l : list A) (x : py B) (zero : B) : py B :=
  match l with
  | [] => Return zero
  | _ :: _ => x
  end.

Definition pair_up {A} (x y : py A) : py (A * A) :=
  match x with
  | Raise e => Raise e
  | Return a =>
      match y with
      | Raise e => Raise e
      | Return b => Return (a, b)
      end
  end.

(** [MatchResult.get_avg_scores] *)
Definition get_avg_scores (r : t) : py (Q * Q) :=
  let avg_a :=
    if_nonempty (scores_a r)
      (py_truediv (py_sum (scores_a r)) (Z.of_nat (length (scores_a r))))
      (of_int 0) in
  let avg_b :=
    if_nonempty (scores_b r)
      (py_truediv (py_sum (scores_b r)) (Z.of_nat (length (scores_b r))))
      (of_int 0) in
  pair_up avg_a avg_b.

(** [MatchResult.get_min_scores] *)
Definition get_min_scores (r : t) : py (Z * Z) :=
  let min_a := if_nonempty (scores_a r) (py_min (scores_a r)) 0 in
  let min_b := if_nonempty (scores_b r) (py_min (scores_b r)) 0 in
  pair_up min_a min_b.

(** [MatchResult.get_middle_scores] *)
Definition get_middle_scores (r : t) : py (Z * Z) :=
  let sorted_a := sorted (scores_a r) in
  let sorted_b := sorted (scores_b r) in
  let mid_a :=
    if_nonempty sorted_a
      (py_index sorted_a (Z.of_nat (length sorted_a) `div` 2)) 0 in
  let mid_b :=
    if_nonempty sorted_b
      (py_index sorted_b (Z.of_nat (length sorted_b) `div` 2)) 0 in
  pair_up mid_a mid_b.

End MatchResult.

Module Match.
Section engine.
Context {W : Type}.
Variable config : GameConfig.
Variables agent_a agent_b : Agent W.

(** [Match._calculate_reward] *)
Definition _calculate_reward (action_a action_b : action) : Z * Z :=
  if bool_decide (action_a = "beat") && bool_decide (action_b = "beat") then
    (llost config, llost config)
  else if bool_decide (action_a = "still")
          && bool_decide (action_b = "still") then
    (wwin config, wwin config)
  else if bool_decide (action_a = "beat")
          && bool_decide (action_b = "still") then
    (beat config, beaten config)
  else
    (beaten config, beat config).

(** The local variables of [_run_single_match]. *)
Record frame : Type := mkFrame {
  history_a : list action;
  history_b : list action;
  total_a : Z;
  total_b : Z
}.

(** One iteration of the round loop.  Both agents decide before the check;
    when the check raises, the frame is as it was before the round. *)
Definition round_body (round_idx : nat) (st : W * frame)
  : (W * frame) * option exn :=
  let '(w, f) := st in
  let '(action_a, w1) := decide agent_a (history_a f) (history_b f) w in
  let '(action_b, w2) := decide agent_b (history_b f) (history_a f) w1 in
  if negb (is_valid action_a) || negb (is_valid action_b) then
    ((w2, f), Some ValueError)
  else
    let '(reward_a, reward_b) := _calculate_reward action_a action_b in
    ((w2, mkFrame (history_a f ++ [action_a]) (history_b f ++ [action_b])
                  (total_a f + reward_a) (total_b f + reward_b)), None).

Definition frame0 : frame := mkFrame [] [] 0 0.

(** The first [n] rounds of a match started in world [w]. *)
Definition rounds_prefix (n : nat) (w : W) : (W * frame) * option exn :=
  for_each (seq 0 n) round_body (w, frame0).

(** [Match._run_single_match]: the world and the frame the round loop ends
    in, and the exception if it raised; on a normal end the method returns
    [(total_a, total_b, history_a, history_b)] of that frame. *)
Definition _run_single_match (w : W) : (W * frame) * option exn :=
  for_each (range (rounds_per_match config)) round_body (w, frame0).

(** One iteration of the match loop of [Match.run]. *)
Definition match_body (match_idx : nat) (st : W * MatchResult.t)
  : (W * MatchResult.t) * option exn :=
  let '(w, result) := st in
  let w1 := reset agent_a w in
  let w2 := reset agent_b w1 in
  match _run_single_match w2 with
  | ((w3, f), None) =>
      ((w3, MatchResult.add_match result (total_a f) (total_b f)
              (history_a f) (history_b f)), None)
  | ((w3, _), Some e) => ((w3, result), Some e)
  end.

(** The first [n] matches of a run started in world [w]. *)
Definition matches_prefix (n : nat) (w : W)
  : (W * MatchResult.t) * option exn :=
  for_each (seq 0 n) match_body (w, MatchResult.init).

(** The body of [Match.run] up to its [return]: the world, the local
    [result] object and the exception, if any. *)
Definition run_state (w : W) : (W * MatchResult.t) * option exn :=
  for_each (range (num_matches config)) match_body (w, MatchResult.init).

(** [Match.run], from its loop to its [return]; the log line between the
    two is added by [run_logged] below. *)
Definition run (w : W) : py MatchResult.t * W :=
  match run_state w with
  | ((w', result), None) => (Return result, w')
  | ((w', _), Some e) => (Raise e, w')
  end.

(** *** Predicates the properties of the engine are stated with *)

(** The round played from world [w] and frame [f] is a protocol
    violation: one of the two decisions is neither "beat" nor "still". *)
Definition violates (w : W) (f : frame) : Prop :=
  ∃ action_a w1 action_b w2,
    decide agent_a (history_a f) (history_b f) w = (action_a, w1) ∧
    decide agent_b (history_b f) (history_a f) w1 = (action_b, w2) ∧
    (is_valid action_a = false ∨ is_valid action_b = false).

(** Round [r] of match [m] (both counted from 0) is reached and is a
    protocol violation. *)
Definition violation_in_round (w : W) (m r : nat) : Prop :=
  ∃ wm result_m wr f,
    matches_prefix m w = ((wm, result_m), None) ∧
    rounds_prefix r (reset agent_b (reset agent_a wm)) = ((wr, f), None) ∧
    violates wr f.

(** What [k] completed rounds leave in the frame. *)
Definition rounds_done (k : nat) (st : W * frame) : Prop :=
  length (history_a st.2) = k ∧ length (history_b st.2) = k ∧
  Forall (λ a, is_valid a = true) (history_a st.2) ∧
  Forall (λ a, is_valid a = true) (history_b st.2).

(** What [k] completed matches leave in the result record. *)
Definition matches_done (k : nat) (st : W * MatchResult.t) : Prop :=
  length (MatchResult.scores_a st.2) = k ∧
  length (MatchResult.scores_b st.2) = k ∧
  length (MatchResult.histories_a st.2) = k ∧
  length (MatchResult.histories_b st.2) = k ∧
  Forall (λ h, length h = Z.to_nat (rounds_per_match config))
    (MatchResult.histories_a st.2) ∧
  Forall (λ h, length h = Z.to_nat (rounds_per_match config))
    (MatchResult.histories_b st.2).

End engine.
End Match.

(** ** agent.py: the strategies the properties below are about *)

(** [Agent.__init__]: [name if name else self.__class__.__name__]. *)
Definition init_name (name : option string) (class_name : string) : string :=
  match name with
  | Some n => if bool_decide (n = EmptyString) then class_name else n
  | None => class_name
  end.

(** An agent without state of its own: [reset] is the inherited [pass]. *)
Definition stateless {W} (name : string)
    (decide : list action → list action → action) : Agent W :=
  mkAgent name (λ hs ho w, (decide hs ho, w)) (λ w, w).

(** An agent whose state [St] is one component of the world. *)
Definition stateful {W St} (name : string) (get : W → St) (set : St → W → W)
    (decide : list action → list action → St → action * St)
    (reset : St → St) : Agent W :=
  mkAgent name
    (λ hs ho w, let '(a, s) := decide hs ho (get w) in (a, set s w))
    (λ w, set (reset (get w)) w).

(** The decisions of successive [decide] calls on one agent state, the
    calls being given by the two histories passed each time. *)
Fixpoint decisions {St}
    (decide : list action → list action → St → action * St)
    (calls : list (list action * list action)) (s : St) : list action :=
  match calls with
  | [] => []
  | (hs, ho) :: calls' =>
      let '(a, s') := decide hs ho s in a :: decisions decide calls' s'
  end.

(** The agent state those calls leave. *)
Fixpoint state_after {St}
    (decide : list action → list action → St → action * St)
    (calls : list (list action * list action)) (s : St) : St :=
  match calls with
  | [] => s
  | (hs, ho) :: calls' => state_after decide calls' (decide hs ho s).2
  end.

Module TitForTatAgent.
Definition decide (history_self history_opponent : list action) : action :=
  match last history_opponent with
  | None => "still"
  | Some a => a
  end.
Definition new {W} (name : option string) : Agent W :=
  stateless (init_name name "TitForTatAgent") decide.
End TitForTatAgent.

Module AlwaysBeatAgent.
Definition decide (history_self history_opponent : list action) : action :=
  "beat".
Definition new {W} (name : option string) : Agent W :=
  stateless (init_name name "AlwaysBeatAgent") decide.
End AlwaysBeatAgent.

Module AlwaysStillAgent.
Definition decide (history_self history_opponent : list action) : action :=
  "still".
Definition new {W} (name : option string) : Agent W :=
  stateless (init_name name "AlwaysStillAgent") decide.
End AlwaysStillAgent.

Module TwoCoopOneDefectAgent.
Record t : Type := mk { counter : Z }.

Definition init : t := mk 0.

Definition decide (history_self history_opponent : list action) (s : t)
  : action * t :=
  let counter' := (counter s + 1) `mod` 3 in
  (if counter' <? 2 then "still" else "beat", mk counter').

Definition reset (s : t) : t := mk 0.

Definition new {W} (name : option string) (get : W → t) (set : t → W → W)
  : Agent W :=
  stateful (init_name name "TwoCoopOneDefectAgent") get set decide reset.
End TwoCoopOneDefectAgent.

(** Python slicing [l[start:stop]] with step 1; [None] is an omitted bound,
    a negative bound counts from the end, and bounds are clamped. *)
Definition py_slice {A} (l : list A) (start stop : option Z) : list A :=
  let n := Z.of_nat (length l) in
  let clamp i := Z.max 0 (Z.min n (if i <? 0 then i + n else i)) in
  let a := match start with Some i => clamp i | None => 0 end in
  let b := match stop with Some i => clamp i | None => n end in
  take (Z.to_nat (b - a)) (drop (Z.to_nat a) l).

(** [max(items, key=...)]: the first of the greatest items; [x] is the
    greatest so far. *)
Fixpoint max_from {A} (key : A → Z) (x : A) (l : list A) : A :=
  match l with
  | [] => x
  | y :: l' => max_from key (if key x <? key y then y else x) l'
  end.

Module HybridAgent.

(** The keys of [self.strategies], in the order the dict holds them. *)
Inductive strategy : Type := tit_for_tat | always_beat | always_still.

#[global] Instance strategy_eq_dec : EqDecision strategy.
Proof. solve_decision. Defined.

Definition strategy_names : list strategy :=
  [tit_for_tat; always_beat; always_still].

(** The lambdas stored in [self.strategies]. *)
Definition strategies (s : strategy) (h_self h_opp : list action) : action :=
  match s with
  | tit_for_tat =>
      match last h_opp with
      | Some a => a
      | None => "still"
      end
  | always_beat => "beat"
  | always_still => "still"
  end.

Record t : Type := mk {
  current_strategy : strategy;
  strategy_performance : list (strategy * Z);
  rounds : Z;
  last_switch : Z
}.

(** [{s: 0 for s in self.strategies}] *)
Definition zero_performance : list (strategy * Z) :=
  (λ s, (s, 0)) <$> strategy_names.

Definition init : t := mk tit_for_tat zero_performance 0 0.

(** [d[k] = v] on a dict that holds the key [k]: the entry keeps its place. *)
Definition set_performance (k : strategy) (v : Z) (d : list (strategy * Z))
  : list (strategy * Z) :=
  (λ kv : strategy * Z, if bool_decide (kv.1 = k) then (k, v) else kv) <$> d.

(** The score one simulated round adds, as the [if]/[elif] chain has it. *)
Definition round_score (action opp_action : action) : Z :=
  if bool_decide (action = "still") && bool_decide (opp_action = "still") then
    3
  else if bool_decide (action = "beat")
          && bool_decide (opp_action = "still") then
    5
  else if bool_decide (action = "still")
          && bool_decide (opp_action = "beat") then
    -2
  else
    1.

(** The body of the loop [for i in range(10)] for one strategy. *)
Definition simulate_round (strategy_func : list action → list action → action)
    (history_self history_opponent recent_self recent_opponent : list action)
    (score : Z) (i : nat) : Z :=
  let action :=
    if bool_decide (i = 0%nat)
       && bool_decide (length history_opponent ≤ 10)%nat then
      "still"
    else
      let prev_self :=
        if bool_decide (0 < i)%nat then
          py_slice recent_self None (Some (Z.of_nat i))
        else
          py_slice history_self (Some (- (10 + Z.of_nat i))) (Some (-10)) in
      let prev_opp :=
        if bool_decide (0 < i)%nat then
          py_slice recent_opponent None (Some (Z.of_nat i))
        else
          py_slice history_opponent (Some (- (10 + Z.of_nat i)))
            (Some (-10)) in
      strategy_func prev_self prev_opp in
  let opp_action := recent_opponent !!! i in
  score + round_score action opp_action.

(** [HybridAgent._evaluate_strategies] *)
Definition _evaluate_strategies (history_self history_opponent : list action)
    (s : t) : t :=
  if bool_decide (length history_opponent < 10)%nat then s
  else
    let recent_opponent := py_slice history_opponent (Some (-10)) None in
    let recent_self := py_slice history_self (Some (-10)) None in
    let performance :=
      foldl (λ perf strategy_name,
               let score :=
                 foldl (simulate_round (strategies strategy_name)
                          history_self history_opponent
                          recent_self recent_opponent)
                       0 (seq 0 10) in
               set_performance strategy_name score perf)
            zero_performance strategy_names in
    (* the dict holds the three strategies: [max] is not given an empty
       sequence *)
    let best :=
      match performance with
      | [] => current_strategy s
      | x :: l => (max_from snd x l).1
      end in
    mk best performance (rounds s) (last_switch s).

(** [HybridAgent.decide] *)
Definition decide (history_self history_opponent : list action) (s : t)
  : action * t :=
  let s1 := mk (current_strategy s) (strategy_performance s)
               (rounds s + 1) (last_switch s) in
  let s2 :=
    if rounds s1 - last_switch s1 >=? 10 then
      let s' := _evaluate_strategies history_self history_opponent s1 in
      mk (current_strategy s') (strategy_performance s') (rounds s')
         (rounds s')
    else s1 in
  (strategies (current_strategy s2) history_self history_opponent, s2).

(** [HybridAgent.reset] *)
Definition reset (s : t) : t := mk tit_for_tat zero_performance 0 0.

Definition new {W} (name : option string) (get : W → t) (set : t → W → W)
  : Agent W :=
  stateful (init_name name "HybridAgent") get set decide reset.

End HybridAgent.

(** What the description of the Hybrid agent says a re-evaluation computes,
    written from the description: each candidate is replayed against a
    window of opponent actions and paid by a payoff table. *)
Module HybridSpec.
Import HybridAgent.

(** The action candidate [s] plays in round [i] of the window. *)
Definition candidate_action (s : strategy) (window : list action) (i : nat)
  : action :=
  match s with
  | tit_for_tat =>
      match i with
      | O => "still"
      | S j => window !!! j
      end
  | always_beat => "beat"
  | always_still => "still"
  end.

(** The payoff of the first player under the table of [config]. *)
Definition table_payoff (config : GameConfig) (mine theirs : action) : Z :=
  (Match._calculate_reward config mine theirs).1.

(** The table with the values written in [_evaluate_strategies]: the round
    and match counts play no part in a payoff. *)
Definition hardcoded : GameConfig := mkGameConfig 5 3 1 (-2) 10 1.

Definition last_ten (history : list action) : list action :=
  drop (length history - 10) history.

Definition retrospective_score (config : GameConfig) (s : strategy)
    (window : list action) : Z :=
  foldl (λ score i,
           score + table_payoff config (candidate_action s window i)
                     (window !!! i))
        0 (seq 0 10).

(** [c] scored highest, and strictly higher than the candidates before it
    in the order tit-for-tat, always-defect, always-cooperate. *)
Definition scored_highest (score : strategy → Z) (c : strategy) : Prop :=
  (∀ c', score c' <= score c) ∧
  match c with
  | tit_for_tat => True
  | always_beat => score tit_for_tat < score always_beat
  | always_still =>
      score tit_for_tat < score always_still ∧
      score always_beat < score always_still
  end.

End HybridSpec.

(** ** tournament.py *)

(** A Python [dict] whose order of insertion is observed. *)
Module Dict.
Section dict.
Context {K V : Type} `{EqDecision K}.

Definition t : Type := list (K * V).

Fixpoint get (k : K) (d : t) : option V :=
  match d with
  | [] => None
  | (k', v) :: d' => if bool_decide (k' = k) then Some v else get k d'
  end.

(** [d[k] = v]: an existing key keeps its place, a new key goes last. *)
Fixpoint set (k : K) (v : V) (d : t) : t :=
  match d with
  | [] => [(k, v)]
  | (k', v') :: d' =>
      if bool_decide (k' = k) then (k, v) :: d' else (k', v') :: set k v d'
  end.

Definition values (d : t) : list V := snd <$> d.

(** [{key x: value x for x in xs}] *)
Definition comprehension {X} (key : X → K) (value : X → V) (xs : list X) : t :=
  foldl (λ d x, set (key x) (value x) d) [] xs.
End dict.
Arguments t K V : clear implicits.
End Dict.

(** [str(n)] of an integer. *)
Definition str (n : Z) : string := NilZero.string_of_int (Z.to_int n).

(** [enumerate(l)] *)
Definition enumerate {A} (l : list A) : list (nat * A) :=
  zip (seq 0 (length l)) l.

(** The attributes an instance of [MatchResult] has: the four lists
    [__init__] sets and the methods the class defines. *)
Definition MatchResult_attributes : list string :=
  ["scores_a"; "scores_b"; "histories_a"; "histories_b";
   "__init__"; "add_match"; "get_avg_scores"; "get_min_scores";
   "get_middle_scores"; "get_win_count_info"; "__str__"].

Definition int_pair (r : py (Z * Z)) : py (Q * Q) :=
  match r with
  | Return (a, b) => Return (MatchResult.of_int a, MatchResult.of_int b)
  | Raise e => Raise e
  end.

(** [score_a, score_b = result.attr()]: looking up an attribute the object
    does not have raises [AttributeError]; the three accessors that return
    a pair of numbers are called; for the other attributes the statement
    fails too (they are not methods that return a pair). *)
Definition call_scores (attr : string) (result : MatchResult.t)
  : py (Q * Q) :=
  if bool_decide (attr ∉ MatchResult_attributes) then Raise AttributeError
  else if bool_decide (attr = "get_avg_scores") then
    MatchResult.get_avg_scores result
  else if bool_decide (attr = "get_min_scores") then
    int_pair (MatchResult.get_min_scores result)
  else if bool_decide (attr = "get_middle_scores") then
    int_pair (MatchResult.get_middle_scores result)
  else Raise TypeError.

(** What the description of the tournament says about repeated names,
    written from the description: the first agent of a name keeps it, the
    [k]-th repeat (the agent with [k] earlier agents of the same name) is
    called [Name_k]. *)
Module RosterSpec.

Definition occurrences (n : string) (names : list string) : nat :=
  length (filter (λ n', n' = n) names).

Definition renamed (names : list string) (i : nat) (n : string) : string :=
  match occurrences n (take i names) with
  | O => n
  | S k => n +:+ "_" +:+ str (Z.of_nat (S k))
  end.

Definition renamed_roster {W} (agents : list (Agent W)) : list (Agent W) :=
  imap (λ i a, set_name a (renamed (name <$> agents) i (name a))) agents.

End RosterSpec.

Module Tournament.
Section tournament.
Context {W : Type}.

(** The object [Tournament.__init__] builds; the log path and the logger
    are left out.  Here every position of the roster holds an agent object
    of its own (as [get_all_agents] builds it), so that giving the agent at
    one position a new name leaves the other positions as they are; a
    roster that lists one object at several positions is the subject of
    [_validate_agent_objects] below. *)
Record t : Type := mk {
  config : GameConfig;
  agents : list (Agent W)
}.

(** One iteration of the renaming loop of [_validate_agents]. *)
Definition rename_step (st : gmap string Z * list (Agent W))
    (ia : nat * Agent W) : gmap string Z * list (Agent W) :=
  let '(name_counts, agents) := st in
  let '(i, agent) := ia in
  match name_counts !! name agent with
  | Some c =>
      let c' := c + 1 in
      (<[name agent := c']> name_counts,
       <[i := set_name agent (name agent +:+ "_" +:+ str c')]> agents)
  | None => (<[name agent := 0]> name_counts, agents)
  end.

(** [Tournament._validate_agents]: the roster with the names it leaves. *)
Definition _validate_agents (agents : list (Agent W))
  : py (list (Agent W)) :=
  if bool_decide (length agents < 2)%nat then Raise ValueError
  else
    let names := name <$> agents in
    if bool_decide (length names ≠ size (list_to_set names : gset string))
    then Return (foldl rename_step (∅, agents) (enumerate agents)).2
    else Return agents.

(** [Tournament.__init__] *)
Definition init (config : GameConfig) (agents : list (Agent W)) : py t :=
  match _validate_agents agents with
  | Return agents' => Return (mk config agents')
  | Raise e => Raise e
  end.

Definition scores_t : Type := Dict.t string (Dict.t string Q).

(** The body of the inner loop of [Tournament.run]. *)
Definition pair_body (self : t) (i : nat) (agent_a : Agent W)
    (jb : nat * Agent W) (st : W * scores_t) : (W * scores_t) * option exn :=
  let '(j, agent_b) := jb in
  let '(w, scores) := st in
  if bool_decide (j ≤ i)%nat then ((w, scores), None)
  else
    match Match.run (config self) agent_a agent_b w with
    | (Raise e, w') => ((w', scores), Some e)
    | (Return result, w') =>
        match call_scores "get_025_scores" result with
        | Raise e => ((w', scores), Some e)
        | Return (score_a, score_b) =>
            match Dict.get (name agent_a) scores with
            | None => ((w', scores), Some KeyError)
            | Some of_a =>
                let scores1 :=
                  Dict.set (name agent_a)
                    (Dict.set (name agent_b) score_a of_a) scores in
                match Dict.get (name agent_b) scores1 with
                | None => ((w', scores1), Some KeyError)
                | Some of_b =>
                    ((w', Dict.set (name agent_b)
                            (Dict.set (name agent_a) score_b of_b) scores1),
                     None)
                end
            end
        end
    end.

(** The two nested loops over [enumerate(self.agents)]. *)
Definition all_pairs (self : t) (st : W * scores_t)
  : (W * scores_t) * option exn :=
  for_each (enumerate (agents self))
    (λ ia, for_each (enumerate (agents self)) (pair_body self ia.1 ia.2))
    st.

Definition q_sum (l : list Q) : Q := foldr Qplus (MatchResult.of_int 0) l.

(** The mean of one agent's scores, [0] when it has none. *)
Definition final_score (opponent_scores : list Q) : Q :=
  match opponent_scores with
  | [] => MatchResult.of_int 0
  | _ :: _ =>
      (q_sum opponent_scores
       / MatchResult.of_int (Z.of_nat (length opponent_scores)))%Q
  end.

(** [ranked.sort(key=lambda x: x[1], reverse=True)]: a stable sort, greatest
    score first. *)
Fixpoint insert_ranked {A} (x : A * Q) (l : list (A * Q)) : list (A * Q) :=
  match l with
  | [] => [x]
  | y :: l' =>
      if Qle_bool y.2 x.2 then x :: y :: l' else y :: insert_ranked x l'
  end.

Definition sort_ranked {A} (l : list (A * Q)) : list (A * Q) :=
  foldr insert_ranked [] l.

(** [Tournament.run] *)
Definition run (self : t) (w : W) : py (list (Agent W * Q)) * W :=
  let scores : scores_t :=
    Dict.comprehension name (λ _, []) (agents self) in
  let agent_lookup : Dict.t string (Agent W) :=
    Dict.comprehension name (λ a, a) (agents self) in
  match all_pairs self (w, scores) with
  | ((w', _), Some e) => (Raise e, w')
  | ((w', scores'), None) =>
      let final_scores : Dict.t string Q :=
        Dict.comprehension fst (λ kv, final_score (Dict.values kv.2))
          scores' in
      let ranked :=
        foldr (λ (ns : string * Q) acc,
                 match acc, Dict.get ns.1 agent_lookup with
                 | Return l, Some a => Return ((a, ns.2) :: l)
                 | Return _, None => Raise KeyError
                 | Raise e, _ => Raise e
                 end)
              (Return []) final_scores in
      match ranked with
      | Return l => (Return (sort_ranked l), w')
      | Raise e => (Raise e, w')
      end
  end.

(** *** The roster as a list of references

    [self.agents] holds references to agent objects, and a caller may list
    one object at several positions.  [objects] is the store of the agent
    objects, an address is a position in the store, and a roster is a list
    of addresses; the agents of a roster are the objects at its
    addresses. *)
Definition deref (objects : list (Agent W)) (roster : list nat)
  : list (Agent W) :=
  omap (λ addr, objects !! addr) roster.

(** Every address of the roster is the address of an object. *)
Definition allocated (objects : list (Agent W)) (roster : list nat) : Prop :=
  Forall (λ addr, addr < length objects)%nat roster.

(** One iteration of the renaming loop of [_validate_agents]:
    [agent] is the object at the address the roster holds at position [i],
    read when the iteration starts, and [self.agents[i].name = ...] writes
    the name of that object, at whichever positions it is listed. *)
Definition rename_object_step (st : gmap string Z * list (Agent W))
    (addr : nat) : gmap string Z * list (Agent W) :=
  let '(name_counts, objects) := st in
  match objects !! addr with
  | None => st
  | Some agent =>
      match name_counts !! name agent with
      | Some c =>
          let c' := c + 1 in
          (<[name agent := c']> name_counts,
           <[addr := set_name agent (name agent +:+ "_" +:+ str c')]> objects)
      | None => (<[name agent := 0]> name_counts, objects)
      end
  end.

(** [Tournament._validate_agents] on a roster of references: the store
    with the names it leaves. *)
Definition _validate_agent_objects (objects : list (Agent W))
    (roster : list nat) : py (list (Agent W)) :=
  if bool_decide (length roster < 2)%nat then Raise ValueError
  else
    let names := name <$> deref objects roster in
    if bool_decide (length names ≠ size (list_to_set names : gset string))
    then Return (foldl rename_object_step (∅, objects) roster).2
    else Return objects.

(** [Tournament.__init__] on a roster of references: the tournament, with
    the agents its roster then refers to, and the store. *)
Definition init_objects (config : GameConfig) (objects : list (Agent W))
    (roster : list nat) : py (t * list (Agent W)) :=
  match _validate_agent_objects objects roster with
  | Return objects' => Return (mk config (deref objects' roster), objects')
  | Raise e => Raise e
  end.

End tournament.
End Tournament.

(** ** match.py: the win count *)

(** The loop of [MatchResult.get_win_count_info] over
    [zip(self.scores_a, self.scores_b)]: wins of A, wins of B, draws. *)
Definition win_counts (r : MatchResult.t) : Z * Z * Z :=
  foldl (λ (acc : Z * Z * Z) (scores : Z * Z),
           let '(win_a, win_b, draws) := acc in
           let '(score_a, score_b) := scores in
           if score_a >? score_b then (win_a + 1, win_b, draws)
           else if score_b >? score_a then (win_a, win_b + 1, draws)
           else (win_a, win_b, draws + 1))
        (0, 0, 0)
        (zip (MatchResult.scores_a r) (MatchResult.scores_b r)).

(** [MatchResult.get_win_count_info] *)
Definition get_win_count_info (r : MatchResult.t) : string :=
  let '(win_a, win_b, draws) := win_counts r in
  "A胜:" +:+ str win_a +:+ " B胜:" +:+ str win_b +:+ " 平局:" +:+ str draws.

(** ** match.py: the closing log line of [Match.run] *)

Definition newline : string := String (Ascii.ascii_of_nat 10) EmptyString.

(** [repr] of a list of integers. *)
Definition repr_list (l : list Z) : string :=
  "[" +:+ String.concat ", " (str <$> l) +:+ "]".

(** [f"{x:.2f}"]: two decimals, the exact value of the double rounded
    half to even. *)
Definition format_2f (x : Q) : string :=
  let m := MatchResult.round_half_even (Z.abs (Qnum x) * 100)
             (Z.pos (Qden x)) in
  let cents := m `mod` 100 in
  (if Qnum x <? 0 then "-" else EmptyString)
  +:+ str (m `div` 100) +:+ "."
  +:+ (if cents <? 10 then "0" else EmptyString) +:+ str cents.

(** [MatchResult.__str__] *)
Definition MatchResult_str (r : MatchResult.t) : py string :=
  match MatchResult.get_min_scores r with
  | Raise e => Raise e
  | Return (min_a, min_b) =>
      match MatchResult.get_avg_scores r with
      | Raise e => Raise e
      | Return (avg_a, avg_b) =>
          let win_info := get_win_count_info r in
          Return
            ("对抗次数: "
             +:+ str (Z.of_nat (length (MatchResult.scores_a r))) +:+ newline
             +:+ "A得分: " +:+ repr_list (MatchResult.scores_a r)
             +:+ "，平均: " +:+ format_2f avg_a
             +:+ "，最低: " +:+ str min_a +:+ newline
             +:+ "B得分: " +:+ repr_list (MatchResult.scores_b r)
             +:+ "，平均: " +:+ format_2f avg_b
             +:+ "，最低: " +:+ str min_b +:+ newline
             +:+ "胜负情况: " +:+ win_info)
      end
  end.

(** [Match.run] as the method is written: after the loop over the matches
    the message of the closing log line is built, which calls
    [str(result)], and then the record is returned.  What building the
    message raises is raised by the run; [Agent.__str__] is the name. *)
Definition run_logged {W} (config : GameConfig) (agent_a agent_b : Agent W)
    (w : W) : py MatchResult.t * W :=
  match Match.run_state config agent_a agent_b w with
  | ((w', result), None) =>
      match MatchResult_str result with
      | Return text =>
          let message :=
            "对抗结束: " +:+ name agent_a +:+ " vs " +:+ name agent_b
            +:+ ", 结果: " +:+ text in
          (Return result, w')
      | Raise e => (Raise e, w')
      end
  | ((w', _), Some e) => (Raise e, w')
  end.

(** The greatest magnitude in the payoff table. *)
Definition payoff_bound (config : GameConfig) : Z :=
  Z.max (Z.max (Z.abs (beat config)) (Z.abs (wwin config)))
        (Z.max (Z.abs (llost config)) (Z.abs (beaten config))).

(** No total of a match can be too large for a double: the number of
    rounds times the greatest payoff magnitude is below the overflow
    threshold of the true division. *)
Definition within_float_range (config : GameConfig) : Prop :=
  Z.max 0 (rounds_per_match config) * payoff_bound config
  < MatchResult.float_overflow.

(** ** Notions the further properties of the engine are stated with *)

(** The totals the payoff table gives two recorded histories. *)
Definition replay (config : GameConfig) (history_a history_b : list action)
  : Z * Z :=
  foldl (λ (totals : Z * Z) (ab : action * action),
           let '(reward_a, reward_b) :=
             Match._calculate_reward config ab.1 ab.2 in
           (totals.1 + reward_a, totals.2 + reward_b))
        (0, 0) (zip history_a history_b).

(** A result record read from the other seat. *)
Definition swap_seats (r : MatchResult.t) : MatchResult.t :=
  MatchResult.mk (MatchResult.scores_b r) (MatchResult.scores_a r)
    (MatchResult.histories_b r) (MatchResult.histories_a r).

(** ** agent.py: further strategies *)

Module ForgivingTitForTatAgent.
(** [history_opponent[-3:].count("beat")] *)
Definition recent_beats (history_opponent : list action) : nat :=
  length (filter (λ a, a = "beat")
            (py_slice history_opponent (Some (-3)) None)).

Definition decide (history_self history_opponent : list action) : action :=
  if bool_decide (length history_opponent < 3)%nat then "still"
  else if bool_decide (2 ≤ recent_beats history_opponent)%nat then "beat"
  else "still".

Definition new {W} (name : option string) : Agent W :=
  stateless (init_name name "ForgivingTitForTatAgent") decide.
End ForgivingTitForTatAgent.

Module GradualAgent.
Record t : Type := mk { revenge_counter : Z; defect_count : Z }.

Definition init : t := mk 0 0.

(** [GradualAgent.decide]: [history_self[-1]] is read only when the
    opponent's last action is "beat", and raises on an empty list. *)
Definition decide (history_self history_opponent : list action) (s : t)
  : py action * t :=
  match last history_opponent with
  | None => (Return "still", s)
  | Some opp_last =>
      let revenge (s1 : t) : py action * t :=
        if revenge_counter s1 >? 0 then
          (Return "beat", mk (revenge_counter s1 - 1) (defect_count s1))
        else (Return "still", s1) in
      if bool_decide (opp_last = "beat") then
        match last history_self with
        | None => (Raise IndexError, s)
        | Some self_last =>
            if bool_decide (self_last = "still") then
              revenge (mk (defect_count s + 1) (defect_count s + 1))
            else revenge s
        end
      else revenge s
  end.

Definition reset (s : t) : t := mk 0 0.
End GradualAgent.

Module RewardPunishmentAgent.
Record t : Type := mk { punishment_counter : Z }.

Definition init : t := mk 0.

Definition decide (history_self history_opponent : list action) (s : t)
  : action * t :=
  match last history_opponent with
  | None => ("still", s)
  | Some opp_last =>
      if bool_decide (opp_last = "still") then
        ("still", mk (Z.max 0 (punishment_counter s - 1)))
      else
        let counter := Z.min 5 (punishment_counter s + 2) in
        (if counter >? 0 then "beat" else "still", mk counter)
  end.

Definition reset (s : t) : t := mk 0.

Definition new {W} (name : option string) (get : W → t) (set : t → W → W)
  : Agent W :=
  stateful (init_name name "RewardPunishmentAgent") get set decide reset.
End RewardPunishmentAgent.

Module EscapeTigerAgent.
Record t : Type := mk {
  coop_streak : Z;
  test_mode : bool;
  exploit_mode : bool
}.

Definition init : t := mk 0 false false.

Definition decide (history_self history_opponent : list action) (s : t)
  : action * t :=
  match last history_opponent with
  | None => ("still", s)
  | Some opp_last =>
      let streak :=
        if bool_decide (last history_self = Some "still")
           && bool_decide (opp_last = "still")
        then coop_streak s + 1 else 0 in
      if test_mode s then
        if bool_decide (opp_last = "still") then ("beat", mk streak false true)
        else ("still", mk streak false false)
      else if exploit_mode s then
        if bool_decide (opp_last = "beat") then
          ("still", mk streak false false)
        else ("beat", mk streak false true)
      else if streak >=? 5 then ("beat", mk 0 true false)
      else ("still", mk streak false false)
  end.

Definition reset (s : t) : t := mk 0 false false.

Definition new {W} (name : option string) (get : W → t) (set : t → W → W)
  : Agent W :=
  stateful (init_name name "EscapeTigerAgent") get set decide reset.
End EscapeTigerAgent.

Module GrudgeAgent.
Record t : Type := mk { grudge : bool }.

Definition init : t := mk false.

Definition decide (history_self history_opponent : list action) (s : t)
  : action * t :=
  match history_opponent with
  | [] => ("still", s)
  | _ :: _ =>
      let s1 :=
        if bool_decide ("beat" ∈ history_opponent) then mk true else s in
      (if grudge s1 then "beat" else "still", s1)
  end.

Definition reset (s : t) : t := mk false.

Definition new {W} (name : option string) (get : W → t) (set : t → W → W)
  : Agent W :=
  stateful (init_name name "GrudgeAgent") get set decide reset.
End GrudgeAgent.

Module PunishmentEscalationAgent.
Record t : Type := mk {
  opponent_defect_count : Z;
  punishment_streak : Z
}.

Definition init : t := mk 0 0.

Definition decide (history_self history_opponent : list action) (s : t)
  : action * t :=
  match last history_opponent with
  | None => ("still", s)
  | Some opp_last =>
      if punishment_streak s >? 0 then
        ("beat", mk (opponent_defect_count s) (punishment_streak s - 1))
      else if bool_decide (opp_last = "beat") then
        let count := opponent_defect_count s + 1 in
        ("beat", mk count (Z.min 5 (count `div` 2)))
      else ("still", s)
  end.

Definition reset (s : t) : t := mk 0 0.

Definition new {W} (name : option string) (get : W → t) (set : t → W → W)
  : Agent W :=
  stateful (init_name name "PunishmentEscalationAgent") get set decide reset.
End PunishmentEscalationAgent.

Module WinStayLoseShiftAgent.
Definition decide (history_self history_opponent : list action) : action :=
  match last history_self, last history_opponent with
  | Some last_action, Some opp_last =>
      if bool_decide (opp_last = "still") then last_action
      else if bool_decide (last_action = "still") then "beat" else "still"
  | _, _ => "still"
  end.

Definition new {W} (name : option string) : Agent W :=
  stateless (init_name name "WinStayLoseShiftAgent") decide.
End WinStayLoseShiftAgent.

Module PavlovAgent.
(** [last_payoff] is only ever set to [None]. *)
Record t : Type := mk { last_payoff : option Z; default_action : action }.

Definition init : t := mk None "still".

Definition decide (history_self history_opponent : list action) (s : t)
  : action * t :=
  match last history_self, last history_opponent with
  | Some last_action_self, Some last_action_opp =>
      (if bool_decide (last_action_self = "still")
          && bool_decide (last_action_opp = "still") then "still"
       else if bool_decide (last_action_self = "beat")
               && bool_decide (last_action_opp = "still") then "beat"
       else if bool_decide (last_action_self = "still")
               && bool_decide (last_action_opp = "beat") then "beat"
       else "still", s)
  | _, _ => (default_action s, s)
  end.

Definition reset (s : t) : t := mk None (default_action s).

Definition new {W} (name : option string) (get : W → t) (set : t → W → W)
  : Agent W :=
  stateful (init_name name "PavlovAgent") get set decide reset.
End PavlovAgent.

(** A frame read from the other seat. *)
Definition swap_frame (f : Match.frame) : Match.frame :=
  Match.mkFrame (Match.history_b f) (Match.history_a f)
    (Match.total_b f) (Match.total_a f).

(** [m] is a least element of [l], or [0] when [l] is empty. *)
Definition least_or_zero (l : list Z) (m : Z) : Prop :=
  match l with
  | [] => m = 0
  | _ :: _ => m ∈ l ∧ Forall (λ x, m <= x) l
  end.

(** [m] is an element of [l] in upper-median position (more than half of
    [l] is at most [m], and at least half of [l] is at least [m]), or [0]
    when [l] is empty. *)
Definition upper_median_or_zero (l : list Z) (m : Z) : Prop :=
  match l with
  | [] => m = 0
  | _ :: _ =>
      m ∈ l ∧
      (length l `div` 2 + 1 ≤ length (filter (λ x : Z, (x <= m)%Z) l))%nat ∧
      (length l - length l `div` 2 ≤ length (filter (λ x : Z, (m <= x)%Z) l))%nat
  end.

Module PatternDetectorAgent.
Record t : Type := mk { pattern_length : Z }.

Definition init : t := mk 3.

(** The loop over [range(len(history_opponent) - self.pattern_length * 2)]
    with its early [return "beat"]. *)
Fixpoint search (history_opponent recent_pattern : list action)
    (pattern_length : Z) (indices : list nat) : action :=
  match indices with
  | [] => "still"
  | i :: indices' =>
      if bool_decide
           (py_slice history_opponent (Some (Z.of_nat i))
              (Some (Z.of_nat i + pattern_length)) = recent_pattern)
         && bool_decide
              (history_opponent !! Z.to_nat (Z.of_nat i + pattern_length)
               = Some "beat")
      then "beat"
      else search history_opponent recent_pattern pattern_length indices'
  end.

Definition decide (history_self history_opponent : list action) (s : t)
  : action * t :=
  if Z.of_nat (length history_opponent) <? pattern_length s + 1 then
    ("still", s)
  else
    let recent_pattern :=
      py_slice history_opponent (Some (- pattern_length s)) None in
    (search history_opponent recent_pattern (pattern_length s)
       (range (Z.of_nat (length history_opponent) - pattern_length s * 2)),
     s).

(** [reset] is the inherited [pass]. *)
Definition reset (s : t) : t := s.

Definition new {W} (name : option string) (get : W → t) (set : t → W → W)
  : Agent W :=
  stateful (init_name name "PatternDetectorAgent") get set decide reset.
End PatternDetectorAgent.

(** * Properties *)

(** ** Facts about [Config.init] *)

Lemma init_cases b w l bn r n :
  (¬ (b > w ∧ w > l ∧ l >= bn) ∨ r <= 0 ∨ n <= 0) ∧
    init b w l bn r n = Raise ValueError
  ∨ (b > w ∧ w > l ∧ l >= bn) ∧ 0 < r ∧ 0 < n ∧
    init b w l bn r n = Return (mkGameConfig b w l bn r n).
Proof.
  unfold init.
  destruct (Z.gtb_spec b w), (Z.gtb_spec w l), (Z.geb_spec l bn);
    simpl; try (left; split; [lia | reflexivity]).
  destruct (Z.leb_spec r 0), (Z.leb_spec n 0);
    simpl; try (left; split; [lia | reflexivity]).
  right. repeat split; lia.
Qed.

Lemma valid_inv c :
  valid c →
  beat c > wwin c ∧ wwin c > llost c ∧ llost c >= beaten c ∧
  0 < rounds_per_match c ∧ 0 < num_matches c.
Proof.
  unfold valid. intros H.
  destruct (init_cases (beat c) (wwin c) (llost c) (beaten c)
              (rounds_per_match c) (num_matches c)) as [[_ E]|(?&?&?&_)].
  - congruence.
  - lia.
Qed.

(** C5. Constructing a [GameConfig] raises (a [ValueError]) exactly when the
    ordering [beat > wwin > llost >= beaten] is violated or
    [rounds_per_match <= 0] or [num_matches <= 0]; otherwise it returns a
    configuration whose six fields are the six arguments, unchanged. *)
Theorem GameConfig_init_spec (b w l bn r n : Z) :
  (raises (init b w l bn r n) ↔
     ¬ (b > w ∧ w > l ∧ l >= bn) ∨ r <= 0 ∨ n <= 0) ∧
  (raises (init b w l bn r n) ↔ init b w l bn r n = Raise ValueError) ∧
  (∀ c, init b w l bn r n = Return c ↔
     (¬ raises (init b w l bn r n) ∧
      beat c = b ∧ wwin c = w ∧ llost c = l ∧ beaten c = bn ∧
      rounds_per_match c = r ∧ num_matches c = n)).
Proof.
  destruct (init_cases b w l bn r n) as [[Hbad E]|(Hord & Hr & Hn & E)];
    rewrite E.
  - split; [|split].
    + split; [intros _; exact Hbad | intros _; eexists; reflexivity].
    + split; [reflexivity | intros _; eexists; reflexivity].
    + intros c. split; [discriminate|].
      intros [Hnr _]. exfalso. apply Hnr. eexists; reflexivity.
  - split; [|split].
    + split; [intros [e He]; discriminate | lia].
    + split; [intros [e He]; discriminate | discriminate].
    + intros c. split.
      * intros [= <-]. simpl. split; [intros [e He]; discriminate|].
        repeat split.
      * intros (_ & ? & ? & ? & ? & ? & ?). destruct c; simpl in *.
        congruence.
Qed.

(** C6, the claim as stated fails: a configuration with
    [llost = beaten] is accepted. *)
Lemma GameConfig_accepts_llost_eq_beaten :
  ¬ (∀ b w l bn r n : Z, l <= bn → raises (init b w l bn r n)).
Proof.
  intros H. destruct (H 5 3 0 0 1 1 ltac:(lia)) as [e He].
  vm_compute in He. discriminate.
Qed.

(** C6, amended. Construction is rejected whenever [llost < beaten], and
    whenever [beat <= wwin] (equality included); with [llost = beaten]
    construction succeeds when the rest of the ordering and both counts
    are in order. *)
Theorem GameConfig_rejects_bad_ordering (b w l bn r n : Z) :
  (l < bn → init b w l bn r n = Raise ValueError) ∧
  (b <= w → init b w l bn r n = Raise ValueError) ∧
  (l = bn → b > w → w > l → 0 < r → 0 < n →
     init b w l bn r n = Return (mkGameConfig b w l bn r n)).
Proof.
  destruct (init_cases b w l bn r n) as [[Hbad E]|(Hord & Hr & Hn & E)];
    rewrite E.
  - repeat split; try reflexivity. intros; lia.
  - repeat split; intros; try reflexivity; lia.
Qed.

Lemma GameConfig_rejects_bad_ordering_witness :
  init 5 3 1 2 10 10 = Raise ValueError ∧
  init 3 3 1 0 10 10 = Raise ValueError ∧
  init 5 3 0 0 10 10 = Return (mkGameConfig 5 3 0 0 10 10).
Proof.
  split; [|split].
  - apply (proj1 (GameConfig_rejects_bad_ordering 5 3 1 2 10 10)). lia.
  - apply (proj1 (proj2 (GameConfig_rejects_bad_ordering 3 3 1 0 10 10))). lia.
  - apply (proj2 (proj2 (GameConfig_rejects_bad_ordering 5 3 0 0 10 10)));
      lia.
Defined.

Lemma GameConfig_init_spec_witness :
  init 5 3 1 0 500 30 = Return (mkGameConfig 5 3 1 0 500 30) ∧
  raises (init 3 5 1 0 500 30) ∧ raises (init 5 3 1 0 0 30).
Proof.
  split; [|split].
  - apply (proj2 (proj2 (GameConfig_init_spec 5 3 1 0 500 30))).
    split; [|repeat split].
    rewrite (proj1 (GameConfig_init_spec 5 3 1 0 500 30)). lia.
  - apply (proj1 (GameConfig_init_spec 3 5 1 0 500 30)). lia.
  - apply (proj1 (GameConfig_init_spec 5 3 1 0 0 30)). lia.
Defined.

(** ** Facts about loops *)

Section for_each_facts.
Context {X S : Type}.
Implicit Types (xs ys : list X) (body : X → S → S * option exn) (s : S).

Lemma for_each_app xs ys body s :
  for_each (xs ++ ys) body s =
    match for_each xs body s with
    | (s', None) => for_each ys body s'
    | (s', Some e) => (s', Some e)
    end.
Proof.
  revert s. induction xs as [|x xs IH]; intros s; simpl; [done|].
  destruct (body x s) as [s' [e|]]; [done|]. apply IH.
Qed.

(** A loop raises exactly when some iteration, reached normally, raises. *)
Lemma for_each_raises xs body s s' e :
  for_each xs body s = (s', Some e) ↔
  ∃ xs1 x xs2 s1,
    xs = xs1 ++ x :: xs2 ∧
    for_each xs1 body s = (s1, None) ∧
    body x s1 = (s', Some e).
Proof.
  split.
  - revert s. induction xs as [|x xs IH]; intros s; simpl; [done|].
    destruct (body x s) as [s1 [e1|]] eqn:Hb.
    + intros [= <- <-]. exists [], x, xs, s. by simpl.
    + intros H. destruct (IH _ H) as (xs1 & y & xs2 & s2 & -> & H1 & H2).
      exists (x :: xs1), y, xs2, s2. simpl. by rewrite Hb.
  - intros (xs1 & x & xs2 & s1 & -> & H1 & H2).
    rewrite for_each_app, H1. simpl. by rewrite H2.
Qed.

(** A property kept by every iteration that ends normally holds after a
    loop that ends normally. *)
Lemma for_each_invariant (I : nat → S → Prop) xs body s s' :
  (∀ k x s1 s2, I k s1 → body x s1 = (s2, None) → I (Datatypes.S k) s2) →
  I 0%nat s →
  for_each xs body s = (s', None) →
  I (length xs) s'.
Proof.
  intros Hstep. revert s.
  assert (∀ k s, I k s → for_each xs body s = (s', None) →
                 I (k + length xs)%nat s') as Hgen.
  { induction xs as [|x xs IH]; intros k s Hk; simpl.
    - intros [= <-]. by rewrite Nat.add_0_r.
    - destruct (body x s) as [s1 [e1|]] eqn:Hb; [done|].
      intros H. replace (k + Datatypes.S (length xs))%nat
        with (Datatypes.S k + length xs)%nat by lia.
      eapply IH; [|done]. by eapply Hstep. }
  intros s H0 H. exact (Hgen 0%nat s H0 H).
Qed.

(** A loop whose iterations never raise ends normally. *)
Lemma for_each_total xs body s :
  (∀ x s1, (body x s1).2 = None) →
  (for_each xs body s).2 = None.
Proof.
  intros Hb. revert s. induction xs as [|x xs IH]; intros s; simpl; [done|].
  specialize (Hb x s). destruct (body x s) as [s1 [e1|]]; [done|]. apply IH.
Qed.

(** The loop index is only logged: a body that ignores it gives the same
    loop over any index list of the same length. *)
Lemma for_each_index_irrelevant xs ys body s :
  (∀ x y s1, body x s1 = body y s1) →
  length xs = length ys →
  for_each xs body s = for_each ys body s.
Proof.
  intros Hb. revert ys s. induction xs as [|x xs IH]; intros [|y ys] s;
    simpl; try done.
  intros [= Hlen]. rewrite (Hb x y).
  destruct (body y s) as [s1 [e1|]]; [done|]. by apply IH.
Qed.
End for_each_facts.

Lemma seq_split_at (n k : nat) :
  (k < n)%nat → seq 0 n = seq 0 k ++ k :: seq (Datatypes.S k) (n - k - 1).
Proof.
  intros Hk. replace n with (k + Datatypes.S (n - k - 1))%nat at 1 by lia.
  by rewrite seq_app.
Qed.

Lemma seq_split_inv (n : nat) (xs1 xs2 : list nat) (x : nat) :
  seq 0 n = xs1 ++ x :: xs2 →
  (x < n)%nat ∧ xs1 = seq 0 x ∧ length xs1 = x.
Proof.
  intros H.
  assert (length xs1 < n)%nat as Hlt.
  { apply (f_equal length) in H. rewrite length_seq, length_app in H.
    simpl in H. lia. }
  assert (x = length xs1) as ->.
  { assert (seq 0 n !! length xs1 = Some x) as Hx.
    { rewrite H. by rewrite list_lookup_middle. }
    apply lookup_seq in Hx. lia. }
  split; [done|]. split; [|done].
  rewrite (seq_split_at n (length xs1) Hlt) in H.
  apply app_inj_1 in H; [by destruct H|]. by rewrite length_seq.
Qed.

(** ** Facts about the match engine *)

Section match_facts.
Context {W : Type}.
Variable config : GameConfig.
Variables agent_a agent_b : Agent W.

Import Match MatchResult.

Abbreviation round_body := (round_body config agent_a agent_b).
Abbreviation match_body := (match_body config agent_a agent_b).
Abbreviation rounds_prefix := (rounds_prefix config agent_a agent_b).
Abbreviation matches_prefix := (matches_prefix config agent_a agent_b).
Abbreviation _run_single_match := (_run_single_match config agent_a agent_b).
Abbreviation run_state := (run_state config agent_a agent_b).
Abbreviation run := (run config agent_a agent_b).
Abbreviation violates := (violates agent_a agent_b).
Abbreviation violation_in_round := (violation_in_round config agent_a agent_b).
Abbreviation matches_done := (matches_done config).

Lemma round_body_normal i w f w' f' :
  round_body i (w, f) = ((w', f'), None) ↔
  ∃ action_a w1 action_b,
    decide agent_a (history_a f) (history_b f) w = (action_a, w1) ∧
    decide agent_b (history_b f) (history_a f) w1 = (action_b, w') ∧
    is_valid action_a = true ∧ is_valid action_b = true ∧
    f' = mkFrame (history_a f ++ [action_a]) (history_b f ++ [action_b])
           (total_a f + (_calculate_reward config action_a action_b).1)
           (total_b f + (_calculate_reward config action_a action_b).2).
Proof.
  unfold Match.round_body.
  destruct (decide agent_a _ _ w) as [a w1] eqn:Hda.
  destruct (decide agent_b _ _ w1) as [b w2] eqn:Hdb.
  destruct (_calculate_reward config a b) as [ra rb] eqn:Hr.
  split.
  - destruct (is_valid a) eqn:Ha, (is_valid b) eqn:Hb; simpl;
      try discriminate.
    intros [= <- <-]. exists a, w1, b. by rewrite Hr.
  - intros (a' & w1' & b' & [= <- <-] & Hdb' & Ha & Hb & ->).
    rewrite Hdb in Hdb'. injection Hdb' as <- <-.
    by rewrite Ha, Hb, Hr.
Qed.

Lemma round_body_raises i w f w' f' e :
  round_body i (w, f) = ((w', f'), Some e) ↔
  e = ValueError ∧ f' = f ∧
  ∃ action_a w1 action_b,
    decide agent_a (history_a f) (history_b f) w = (action_a, w1) ∧
    decide agent_b (history_b f) (history_a f) w1 = (action_b, w') ∧
    (is_valid action_a = false ∨ is_valid action_b = false).
Proof.
  unfold Match.round_body.
  destruct (decide agent_a _ _ w) as [a w1] eqn:Hda.
  destruct (decide agent_b _ _ w1) as [b w2] eqn:Hdb.
  destruct (_calculate_reward config a b) as [ra rb] eqn:Hr.
  split.
  - destruct (is_valid a) eqn:Ha, (is_valid b) eqn:Hb; simpl;
      try discriminate; intros [= <- <- <-];
      (split; [done|split; [done|]]); exists a, w1, b; auto.
  - intros (-> & -> & a' & w1' & b' & [= <- <-] & Hdb' & Hv).
    rewrite Hdb in Hdb'. injection Hdb' as <- <-.
    by destruct Hv as [-> | ->]; simpl; rewrite ?orb_true_r.
Qed.

Lemma round_body_raises_violates i w f :
  (∃ st e, round_body i (w, f) = (st, Some e)) ↔ violates w f.
Proof.
  split.
  - intros ([w' f'] & e & H). apply round_body_raises in H
      as (_ & _ & a & w1 & b & Ha & Hb & Hv).
    by exists a, w1, b, w'.
  - intros (a & w1 & b & w2 & Ha & Hb & Hv). exists (w2, f), ValueError.
    apply round_body_raises. split; [done|]. split; [done|].
    by exists a, w1, b.
Qed.

Lemma round_body_index i j st : round_body i st = round_body j st.
Proof. reflexivity. Qed.

Lemma match_body_index i j st : match_body i st = match_body j st.
Proof. reflexivity. Qed.

Lemma rounds_done_loop xs w st' :
  for_each xs round_body (w, frame0) = (st', None) →
  rounds_done (length xs) st'.
Proof.
  apply (for_each_invariant rounds_done).
  - intros k x [w1 f1] [w2 f2] (Ha & Hb & Hva & Hvb) Hstep.
    apply round_body_normal in Hstep
      as (a & w1' & b & _ & _ & Hia & Hib & ->).
    unfold rounds_done; simpl in *.
    rewrite !length_app, !Forall_app, !Forall_singleton. simpl.
    repeat split; auto; lia.
  - repeat split; simpl; auto.
Qed.

Lemma match_body_normal i w result st' :
  match_body i (w, result) = (st', None) ↔
  ∃ w3 f,
    _run_single_match (reset agent_b (reset agent_a w)) = ((w3, f), None) ∧
    st' = (w3, add_match result (total_a f) (total_b f)
                 (history_a f) (history_b f)).
Proof.
  unfold Match.match_body.
  destruct (_run_single_match _) as [[w3 f] [e|]]; split.
  - discriminate.
  - intros (?&?&[=]&_).
  - intros [= <-]. by exists w3, f.
  - by intros (?&?&[= <- <-]&->).
Qed.

Lemma match_body_raises i w result st' e :
  match_body i (w, result) = (st', Some e) ↔
  ∃ w3 f,
    _run_single_match (reset agent_b (reset agent_a w)) = ((w3, f), Some e) ∧
    st' = (w3, result).
Proof.
  unfold Match.match_body.
  destruct (_run_single_match _) as [[w3 f] [e'|]]; split.
  - intros [= <- <-]. by exists w3, f.
  - by intros (?&?&[= <- <- <-]&->).
  - discriminate.
  - intros (?&?&[=]&_).
Qed.

Lemma matches_done_loop xs w st' :
  for_each xs match_body (w, MatchResult.init) = (st', None) →
  matches_done (length xs) st'.
Proof.
  apply (for_each_invariant matches_done).
  - intros k x [w1 r1] st2 (Ha & Hb & Hha & Hhb & Hla & Hlb) Hstep.
    apply match_body_normal in Hstep as (w3 & f & Hrun & ->).
    apply rounds_done_loop in Hrun as (Hfa & Hfb & _).
    unfold range in Hfa, Hfb. rewrite length_seq in Hfa, Hfb.
    unfold matches_done, add_match; simpl in *.
    rewrite !length_app, !Forall_app, !Forall_singleton. simpl.
    repeat split; auto; lia.
  - repeat split; simpl; auto.
Qed.

(** A single match raises exactly when one of its rounds is reached and
    is a violation; it then stops in the frame of the rounds completed. *)
Lemma _run_single_match_raises w w' f e :
  _run_single_match w = ((w', f), Some e) ↔
  e = ValueError ∧
  ∃ r wr,
    (r < Z.to_nat (rounds_per_match config))%nat ∧
    rounds_prefix r w = ((wr, f), None) ∧
    round_body r (wr, f) = ((w', f), Some ValueError).
Proof.
  unfold Match._run_single_match, Match.rounds_prefix, range.
  rewrite for_each_raises. split.
  - intros (xs1 & x & xs2 & [wr fr] & Hsplit & Hpre & Hbody).
    apply seq_split_inv in Hsplit as (Hlt & -> & _).
    pose proof Hbody as Hb.
    apply round_body_raises in Hb as (-> & -> & _).
    split; [done|]. by exists x, wr.
  - intros (-> & r & wr & Hlt & Hpre & Hbody).
    exists (seq 0 r), r, (seq (Datatypes.S r)
      (Z.to_nat (rounds_per_match config) - r - 1)), (wr, f).
    split; [by apply seq_split_at|]. by split.
Qed.

Lemma run_state_raises w w' result e :
  run_state w = ((w', result), Some e) ↔
  ∃ m wm,
    (m < Z.to_nat (num_matches config))%nat ∧
    matches_prefix m w = ((wm, result), None) ∧
    ∃ f, _run_single_match (reset agent_b (reset agent_a wm))
         = ((w', f), Some e).
Proof.
  unfold Match.run_state, Match.matches_prefix, range.
  rewrite for_each_raises. split.
  - intros (xs1 & x & xs2 & [wm rm] & Hsplit & Hpre & Hbody).
    apply seq_split_inv in Hsplit as (Hlt & -> & _).
    apply match_body_raises in Hbody as (w3 & f & Hrun & [= <- <-]).
    exists x, wm. split; [done|]. split; [done|]. by exists f.
  - intros (m & wm & Hlt & Hpre & f & Hrun).
    exists (seq 0 m), m, (seq (Datatypes.S m)
      (Z.to_nat (num_matches config) - m - 1)), (wm, result).
    split; [by apply seq_split_at|]. split; [done|].
    apply match_body_raises. by exists w', f.
Qed.

Lemma run_raises_inv w e w' :
  run w = (Raise e, w') ↔ ∃ result, run_state w = ((w', result), Some e).
Proof.
  unfold Match.run. destruct (run_state w) as [[w1 r1] [e1|]]; split.
  - intros [= <- <-]. by exists r1.
  - by intros (r & [= <- _ <-]).
  - discriminate.
  - by intros (r & [=]).
Qed.

Lemma run_returns_inv w result w' :
  run w = (Return result, w') ↔ run_state w = ((w', result), None).
Proof.
  unfold Match.run. destruct (run_state w) as [[w1 r1] [e1|]]; split;
    try discriminate.
  - by intros [= <- <-].
  - by intros [= <- <-].
Qed.

(** The only exception [Match.run] raises is the [ValueError] of the check. *)
Lemma run_raises_ValueError w e w' : run w = (Raise e, w') → e = ValueError.
Proof.
  intros Hrun. apply run_raises_inv in Hrun as (result & Hst).
  apply run_state_raises in Hst as (m & wm & _ & _ & f & Hsingle).
  by apply _run_single_match_raises in Hsingle as (-> & _).
Qed.

(** Where a run that raises stopped: in round [r] of match [m], with the
    frame of the [r] rounds completed in that match and the record of the
    [m] matches completed before. *)
Lemma run_raises_abort w e w' :
  run w = (Raise e, w') →
  ∃ m r wm result_m wr f,
    (m < Z.to_nat (num_matches config))%nat ∧
    (r < Z.to_nat (rounds_per_match config))%nat ∧
    matches_prefix m w = ((wm, result_m), None) ∧
    rounds_prefix r (reset agent_b (reset agent_a wm)) = ((wr, f), None) ∧
    violates wr f ∧
    _run_single_match (reset agent_b (reset agent_a wm))
      = ((w', f), Some ValueError) ∧
    rounds_done r (wr, f) ∧
    run_state w = ((w', result_m), Some ValueError) ∧
    matches_done m (wm, result_m).
Proof.
  intros Hrun. apply run_raises_inv in Hrun as (result & Hst).
  pose proof Hst as Hst'.
  apply run_state_raises in Hst' as (m & wm & Hm & Hpre & f & Hsingle).
  pose proof Hsingle as Hs'.
  apply _run_single_match_raises in Hs' as (-> & r & wr & Hr & Hrpre & Hb).
  pose proof (rounds_done_loop _ _ _ Hrpre) as Hrd.
  pose proof (matches_done_loop _ _ _ Hpre) as Hmd.
  rewrite length_seq in Hrd, Hmd.
  exists m, r, wm, result, wr, f. split_and!; try done.
  apply (round_body_raises_violates r). eauto.
Qed.

(** The loop of [Match.run] raises exactly when some round of some match
    is reached in which one of the two decisions is neither "beat" nor
    "still". *)
Lemma run_raises_violation (w : W) :
  (∃ w', run w = (Raise ValueError, w')) ↔
  ∃ m r, (m < Z.to_nat (num_matches config))%nat ∧
         (r < Z.to_nat (rounds_per_match config))%nat ∧
         violation_in_round w m r.
Proof.
  split.
  - intros [w' Hrun].
    destruct (run_raises_abort _ _ _ Hrun)
      as (m & r & wm & rm & wr & f & Hm & Hr & Hp & Hrp & Hv & _).
    exists m, r. split_and!; try done. by exists wm, rm, wr, f.
  - intros (m & r & Hm & Hr & wm & rm & wr & f & Hp & Hrp & Hv).
    apply (round_body_raises_violates r) in Hv as ([w2 f2] & e & Hb).
    pose proof Hb as Hb'. apply round_body_raises in Hb' as (-> & -> & _).
    exists w2. apply run_raises_inv. exists rm.
    apply run_state_raises. exists m, wm. split; [done|]. split; [done|].
    exists f. apply _run_single_match_raises. split; [done|].
    by exists r, wr.
Qed.


End match_facts.

(** ** The accessors of [MatchResult] *)

Lemma py_index_in_range {A} (l : list A) (i : Z) :
  0 <= i < Z.of_nat (length l) → returns (MatchResult.py_index l i).
Proof.
  intros Hi. unfold MatchResult.py_index. cbv zeta.
  rewrite !(proj2 (Z.ltb_ge i 0)) by lia.
  rewrite (proj2 (Z.leb_gt (Z.of_nat (length l)) i)) by lia. simpl.
  destruct (lookup_lt_is_Some_2 l (Z.to_nat i)) as [x ->]; [lia|].
  by exists x.
Qed.

(** On every record the minimum and the middle return, and the average
    returns or raises [OverflowError]: each guard keeps the operation that
    could raise away from the empty list, and what is left is a quotient
    too large for a double. *)
Lemma MatchResult_accessors_total (r : MatchResult.t) :
  (returns (MatchResult.get_avg_scores r)
   ∨ MatchResult.get_avg_scores r = Raise OverflowError) ∧
  returns (MatchResult.get_min_scores r) ∧
  returns (MatchResult.get_middle_scores r).
Proof.
  assert (∀ l : list Z,
            let x := MatchResult.if_nonempty l
                       (MatchResult.py_truediv (MatchResult.py_sum l)
                          (Z.of_nat (length l))) (MatchResult.of_int 0) in
            returns x ∨ x = Raise OverflowError) as Havg.
  { intros [|x l]; [left; by eexists|]. unfold MatchResult.py_truediv.
    cbv zeta. unfold MatchResult.if_nonempty.
    destruct (Z.eqb_spec (Z.of_nat (length (x :: l))) 0) as [H0|_];
      [simpl in H0; lia|].
    destruct (_ <=? _); [by right|].
    left. destruct (_ =? 0); by eexists. }
  assert (∀ l : list Z, returns (MatchResult.if_nonempty l
            (MatchResult.py_min l) 0)) as Hmin.
  { intros [|x l]; by eexists. }
  assert (∀ l : list Z, returns (MatchResult.if_nonempty l
            (MatchResult.py_index l (Z.of_nat (length l) `div` 2)) 0))
    as Hmid.
  { intros [|x l]; [by eexists|]. apply py_index_in_range.
    assert (0 < Z.of_nat (length (x :: l))) by (simpl; lia).
    split; [by apply Z.div_pos; lia|]. apply Z.div_lt_upper_bound; lia. }
  unfold MatchResult.get_avg_scores, MatchResult.get_min_scores,
    MatchResult.get_middle_scores.
  split_and!.
  - destruct (Havg (MatchResult.scores_a r)) as [[a ->] | ->]; [|by right].
    destruct (Havg (MatchResult.scores_b r)) as [[b ->] | ->]; [|by right].
    left. by eexists.
  - destruct (Hmin (MatchResult.scores_a r)) as [a ->].
    destruct (Hmin (MatchResult.scores_b r)) as [b ->]. by eexists.
  - destruct (Hmid (MatchResult.sorted (MatchResult.scores_a r))) as [a ->].
    destruct (Hmid (MatchResult.sorted (MatchResult.scores_b r))) as [b ->].
    by eexists.
Qed.

(** C10. On a record in which no match has been added (four empty lists)
    the accessors [get_avg_scores], [get_min_scores] and
    [get_middle_scores] return [(0, 0)]: the division, the minimum and the
    indexing that would raise on an empty list are not reached. *)
Theorem MatchResult_empty_accessors :
  MatchResult.get_avg_scores (MatchResult.mk [] [] [] [])
    = Return (MatchResult.of_int 0, MatchResult.of_int 0) ∧
  MatchResult.get_min_scores (MatchResult.mk [] [] [] []) = Return (0, 0) ∧
  MatchResult.get_middle_scores (MatchResult.mk [] [] [] []) = Return (0, 0) ∧
  MatchResult.py_truediv (MatchResult.py_sum []) (Z.of_nat (length (@nil Z)))
    = Raise ZeroDivisionError ∧
  MatchResult.py_min [] = Raise ValueError ∧
  MatchResult.py_index (MatchResult.sorted [])
    (Z.of_nat (length (MatchResult.sorted [])) `div` 2) = Raise IndexError.
Proof. repeat split. Qed.

(** ** The closing log line of [Match.run] *)

Lemma float_overflow_pos : 0 < MatchResult.float_overflow.
Proof. by vm_compute. Qed.

Lemma py_sum_bound (l : list Z) (B : Z) :
  Forall (λ s, Z.abs s <= B) l →
  Z.abs (MatchResult.py_sum l) <= Z.of_nat (length l) * B.
Proof.
  unfold MatchResult.py_sum. induction 1 as [|x l Hx Hl IH].
  - simpl. lia.
  - cbn [length foldr]. rewrite Nat2Z.inj_succ. lia.
Qed.

(** The average of scores bounded below the overflow threshold is a
    double. *)
Lemma py_truediv_bounded (l : list Z) (B : Z) :
  l ≠ [] →
  B < MatchResult.float_overflow →
  Forall (λ s, Z.abs s <= B) l →
  returns (MatchResult.py_truediv (MatchResult.py_sum l)
             (Z.of_nat (length l))).
Proof.
  intros Hne HB Hl. pose proof (py_sum_bound l B Hl) as Hs.
  assert (0 < Z.of_nat (length l)) as Hn.
  { destruct l; [done|]. cbn [length]. lia. }
  unfold MatchResult.py_truediv.
  destruct (Z.eqb_spec (Z.of_nat (length l)) 0) as [H0|_]; [lia|].
  destruct (Z.leb_spec
              (MatchResult.float_overflow * Z.abs (Z.of_nat (length l)))
              (Z.abs (MatchResult.py_sum l))) as [Hov|_].
  - exfalso. rewrite (Z.abs_eq (Z.of_nat (length l))) in Hov by lia.
    assert (Z.of_nat (length l) * B
            < MatchResult.float_overflow * Z.of_nat (length l)) by nia.
    lia.
  - destruct (_ =? 0); by eexists.
Qed.

(** Building the text of a record raises nothing but the [OverflowError]
    of an average. *)
Lemma MatchResult_str_raises (r : MatchResult.t) (e : exn) :
  MatchResult_str r = Raise e →
  e = OverflowError ∧ MatchResult.get_avg_scores r = Raise OverflowError.
Proof.
  unfold MatchResult_str.
  destruct (MatchResult_accessors_total r) as (Havg & [[ma mb] ->] & _).
  destruct Havg as [[[aa ab] ->] | ->]; [done|]. by intros [= <-].
Qed.

Lemma MatchResult_str_bounded (r : MatchResult.t) (B : Z) :
  B < MatchResult.float_overflow →
  Forall (λ s, Z.abs s <= B) (MatchResult.scores_a r) →
  Forall (λ s, Z.abs s <= B) (MatchResult.scores_b r) →
  returns (MatchResult_str r).
Proof.
  intros HB Ha Hb. unfold MatchResult_str.
  destruct (MatchResult_accessors_total r) as (_ & [[ma mb] ->] & _).
  assert (∀ l : list Z, Forall (λ s, Z.abs s <= B) l →
            returns (MatchResult.if_nonempty l
                       (MatchResult.py_truediv (MatchResult.py_sum l)
                          (Z.of_nat (length l))) (MatchResult.of_int 0)))
    as Havg.
  { intros [|x l] Hl; [by eexists|]. by apply (py_truediv_bounded _ B). }
  unfold MatchResult.get_avg_scores.
  destruct (Havg _ Ha) as [a ->]. destruct (Havg _ Hb) as [b ->].
  by eexists.
Qed.

Section closing_log_line.
Context {W : Type}.
Variable config : GameConfig.
Variables agent_a agent_b : Agent W.

Import Match MatchResult.

Lemma reward_bound (a b : action) :
  Z.abs (_calculate_reward config a b).1 <= payoff_bound config ∧
  Z.abs (_calculate_reward config a b).2 <= payoff_bound config.
Proof.
  unfold _calculate_reward, payoff_bound.
  destruct (_ && _); [simpl; lia|].
  destruct (_ && _); [simpl; lia|].
  destruct (_ && _); simpl; lia.
Qed.

(** After [k] rounds no total exceeds [k] times the greatest payoff
    magnitude. *)
Lemma totals_bound xs (w : W) st' :
  for_each xs (round_body config agent_a agent_b) (w, frame0) = (st', None) →
  Z.abs (total_a st'.2) <= Z.of_nat (length xs) * payoff_bound config ∧
  Z.abs (total_b st'.2) <= Z.of_nat (length xs) * payoff_bound config.
Proof.
  apply (for_each_invariant (λ (k : nat) (st : W * frame),
    Z.abs (total_a st.2) <= Z.of_nat k * payoff_bound config ∧
    Z.abs (total_b st.2) <= Z.of_nat k * payoff_bound config)).
  - intros k x [w1 f1] [w2 f2] [Ha Hb] Hstep.
    apply round_body_normal in Hstep as (a & w1' & b & _ & _ & _ & _ & ->).
    simpl in *. pose proof (reward_bound a b) as [Hra Hrb].
    rewrite Nat2Z.inj_succ. lia.
  - simpl. lia.
Qed.

Lemma scores_bound xs (w : W) st' :
  for_each xs (match_body config agent_a agent_b) (w, MatchResult.init)
    = (st', None) →
  Forall (λ s, Z.abs s
               <= Z.max 0 (rounds_per_match config) * payoff_bound config)
    (scores_a st'.2) ∧
  Forall (λ s, Z.abs s
               <= Z.max 0 (rounds_per_match config) * payoff_bound config)
    (scores_b st'.2).
Proof.
  apply (for_each_invariant (λ (_ : nat) (st : W * MatchResult.t),
    Forall (λ s, Z.abs s
                 <= Z.max 0 (rounds_per_match config) * payoff_bound config)
      (scores_a st.2) ∧
    Forall (λ s, Z.abs s
                 <= Z.max 0 (rounds_per_match config) * payoff_bound config)
      (scores_b st.2))).
  - intros k x [w1 r1] st2 [Ha Hb] Hstep.
    apply match_body_normal in Hstep as (w3 & f & Hrun & ->).
    apply totals_bound in Hrun as [Hta Htb].
    unfold range in Hta, Htb. rewrite length_seq in Hta, Htb.
    replace (Z.of_nat (Z.to_nat (rounds_per_match config)))
      with (Z.max 0 (rounds_per_match config)) in Hta, Htb by lia.
    simpl in *. rewrite !Forall_app, !Forall_singleton. by repeat split.
  - simpl. by split.
Qed.

(** A run raises either in its loop or, after the loop, in the text of
    its closing log line. *)
Lemma run_logged_raises_inv (w : W) e w' :
  run_logged config agent_a agent_b w = (Raise e, w') ↔
  run config agent_a agent_b w = (Raise e, w') ∨
  ∃ result, run_state config agent_a agent_b w = ((w', result), None) ∧
            MatchResult_str result = Raise e.
Proof.
  unfold run_logged, run.
  destruct (run_state config agent_a agent_b w) as [[w1 r1] [e1|]].
  - split; [by left|]. by intros [H | (r & [=] & _)].
  - destruct (MatchResult_str r1) as [text|e2] eqn:Hs; split.
    + discriminate.
    + intros [[=] | (r & [= <- <-] & H)]. congruence.
    + intros [= <- <-]. right. by exists r1.
    + intros [[=] | (r & [= <- <-] & H)]. congruence.
Qed.

(** The record a run returns is the record its loop has built: what is
    proved of the record [run] returns holds of the record the method
    returns. *)
Lemma run_logged_returns (w : W) result w' :
  run_logged config agent_a agent_b w = (Return result, w') →
  run config agent_a agent_b w = (Return result, w').
Proof.
  unfold run_logged, run.
  destruct (run_state config agent_a agent_b w) as [[w1 r1] [e1|]]; [done|].
  by destruct (MatchResult_str r1).
Qed.

(** Within the float range the closing log line returns, and the run is
    its loop. *)
Lemma run_logged_run (w : W) :
  within_float_range config →
  run_logged config agent_a agent_b w = run config agent_a agent_b w.
Proof.
  intros Hw. unfold run_logged, run.
  destruct (run_state config agent_a agent_b w) as [[w1 r1] [e1|]] eqn:Hst;
    [done|].
  unfold run_state in Hst. apply scores_bound in Hst as [Ha Hb].
  simpl in Ha, Hb.
  by destruct (MatchResult_str_bounded r1 _ Hw Ha Hb) as [text ->].
Qed.


End closing_log_line.


(** ** TwoCoopOneDefect *)

Lemma TwoCoopOneDefect_decisions_from calls s :
  0 <= TwoCoopOneDefectAgent.counter s < 3 →
  decisions TwoCoopOneDefectAgent.decide calls s =
    (λ i : nat,
       if (TwoCoopOneDefectAgent.counter s + Z.of_nat i + 1) `mod` 3 =? 2
       then "beat" else "still")
      <$> seq 0 (length calls).
Proof.
  revert s. induction calls as [|[hs ho] calls IH]; intros [c] Hc; [done|].
  simpl in Hc. cbn [decisions TwoCoopOneDefectAgent.decide length seq fmap
                    list_fmap TwoCoopOneDefectAgent.counter].
  f_equal.
  - rewrite Z.add_0_r.
    destruct (Z.ltb_spec ((c + 1) `mod` 3) 2),
             (Z.eqb_spec ((c + 1) `mod` 3) 2); try done; try lia.
    pose proof (Z.mod_pos_bound (c + 1) 3). lia.
  - rewrite IH; simpl.
    + rewrite <- (fmap_S_seq 0), <- list_fmap_compose.
      apply list_fmap_ext. intros _ i _. simpl.
      replace (c + Z.of_nat (Datatypes.S i) + 1)
        with ((c + 1) + (Z.of_nat i + 1)) by lia.
      replace ((c + 1) `mod` 3 + Z.of_nat i + 1)
        with ((c + 1) `mod` 3 + (Z.of_nat i + 1)) by lia.
      by rewrite Zplus_mod_idemp_l.
    + apply Z.mod_pos_bound. lia.
Qed.

(** C2, as the code behaves. After a reset the decision of round [k]
    (from 1) is "beat" exactly when [k mod 3 = 2] and "still" otherwise,
    whatever histories are passed: the sequence is still, beat, still,
    still, beat, still, ... and not still, still, beat.  In particular
    round 2 answers "beat" and round 3 answers "still". *)
Theorem TwoCoopOneDefect_cycle (calls : list (list action * list action))
    (s : TwoCoopOneDefectAgent.t) :
  decisions TwoCoopOneDefectAgent.decide calls (TwoCoopOneDefectAgent.reset s)
    = (λ i : nat, if (Z.of_nat i + 1) `mod` 3 =? 2 then "beat" else "still")
        <$> seq 0 (length calls)
  ∧ ∀ c1 c2 c3,
      decisions TwoCoopOneDefectAgent.decide [c1; c2; c3]
        (TwoCoopOneDefectAgent.reset s) = ["still"; "beat"; "still"].
Proof.
  split.
  - rewrite TwoCoopOneDefect_decisions_from; [|simpl; lia].
    apply list_fmap_ext. intros _ i _. simpl. do 2 f_equal.
  - by intros [??] [??] [??].
Qed.

(** ** TitForTat against AlwaysBeat *)

Section tit_for_tat_vs_always_beat.
Context {W : Type}.
Variables (name_a name_b : option string) (R n : Z).

Import Match.

Local Abbreviation config := (mkGameConfig 5 3 1 0 R n).
Local Abbreviation tit_for_tat := (TitForTatAgent.new (W:=W) name_a).
Local Abbreviation always_beat := (AlwaysBeatAgent.new (W:=W) name_b).

Lemma last_replicate_S {A} (k : nat) (x : A) :
  last (replicate (Datatypes.S k) x) = Some x.
Proof. rewrite replicate_S_end. apply last_snoc. Qed.

(** The frame after [k + 1] rounds: TitForTat has cooperated once and then
    mirrored the defection of the round before. *)
Lemma TitForTat_AlwaysBeat_rounds (w : W) (k : nat) :
  rounds_prefix config tit_for_tat always_beat (Datatypes.S k) w =
    ((w, mkFrame ("still" :: replicate k "beat")
                 (replicate (Datatypes.S k) "beat")
                 (Z.of_nat k) (5 + Z.of_nat k)), None).
Proof.
  unfold rounds_prefix. induction k as [|k IH]; [done|].
  rewrite seq_S, for_each_app, IH. clear IH.
  cbn [for_each round_body history_a history_b total_a total_b
       TitForTatAgent.new AlwaysBeatAgent.new stateless decide plus].
  unfold TitForTatAgent.decide, AlwaysBeatAgent.decide.
  rewrite last_replicate_S.
  change (is_valid "beat") with true.
  cbn [negb orb _calculate_reward bool_decide].
  change (_calculate_reward config "beat" "beat") with (1, 1).
  cbv iota beta.
  rewrite <- !replicate_S_end. cbn [app]. rewrite <- replicate_S_end.
  replace (Z.of_nat (Datatypes.S k)) with (Z.of_nat k + 1) by lia.
  by rewrite Z.add_assoc.
Qed.

(** C8. With payoffs beat=5, wwin=3, llost=1, beaten=0 and [R >= 1] rounds,
    a single match of TitForTat (player A) against AlwaysBeat (player B)
    ends normally with totals [0 + (R-1)*1] for TitForTat and
    [5 + (R-1)*1] for AlwaysBeat: TitForTat answers "still" in round 1 and
    "beat" in every later round. *)
Theorem TitForTat_vs_AlwaysBeat_totals (w : W) :
  1 <= R →
  ∃ f,
    _run_single_match config tit_for_tat always_beat w = ((w, f), None) ∧
    total_a f = 0 + (R - 1) * 1 ∧
    total_b f = 5 + (R - 1) * 1 ∧
    history_a f = "still" :: replicate (Z.to_nat (R - 1)) "beat" ∧
    history_b f = replicate (Z.to_nat R) "beat".
Proof.
  intros HR. unfold _run_single_match, range.
  change (rounds_per_match config) with R.
  replace (Z.to_nat R) with (Datatypes.S (Z.to_nat (R - 1))) by lia.
  pose proof (TitForTat_AlwaysBeat_rounds w (Z.to_nat (R - 1))) as H.
  unfold rounds_prefix in H. rewrite H.
  eexists. split; [reflexivity|]. simpl. repeat split; lia.
Qed.

End tit_for_tat_vs_always_beat.

Lemma TitForTat_vs_AlwaysBeat_totals_witness :
  ∃ f,
    Match._run_single_match (mkGameConfig 5 3 1 0 4 1)
      (TitForTatAgent.new None) (AlwaysBeatAgent.new None) tt
      = ((tt, f), None) ∧
    Match.total_a f = 0 + (4 - 1) * 1 ∧
    Match.total_b f = 5 + (4 - 1) * 1 ∧
    Match.history_a f = "still" :: replicate (Z.to_nat (4 - 1)) "beat" ∧
    Match.history_b f = replicate (Z.to_nat 4) "beat".
Proof.
  apply (TitForTat_vs_AlwaysBeat_totals None None 4 1 tt). lia.
Defined.

(** ** Concrete runs of the match engine *)



(** ** The roster of a tournament *)

Section roster.
Context {W : Type}.
Implicit Types (agents l rest : list (Agent W)) (names : list string).

Import Tournament RosterSpec.

Lemma size_list_to_set_le names :
  (size (list_to_set names : gset string) ≤ length names)%nat.
Proof.
  induction names as [|x names IH]; [done|].
  rewrite list_to_set_cons. simpl length.
  - destruct (base.decide (x ∈ names)) as [Hin|Hnin].
    + assert ({[x]} ∪ list_to_set names = (list_to_set names : gset string))
        as -> by (by apply subseteq_union_1_L, singleton_subseteq_l,
                   elem_of_list_to_set).
      lia.
    + rewrite size_union by set_solver. rewrite size_singleton. lia.
Qed.

Lemma size_list_to_set_NoDup names :
  length names = size (list_to_set names : gset string) ↔ NoDup names.
Proof.
  split; [|intros H; by rewrite size_list_to_set].
  induction names as [|x names IH]; [constructor|].
  rewrite list_to_set_cons. simpl length.
  destruct (base.decide (x ∈ names)) as [Hin|Hnin].
  - assert ({[x]} ∪ list_to_set names = (list_to_set names : gset string))
      as -> by (by apply subseteq_union_1_L, singleton_subseteq_l,
                   elem_of_list_to_set).
    pose proof (size_list_to_set_le names). lia.
  - rewrite size_union by set_solver. rewrite size_singleton.
    intros H. constructor; [done|]. apply IH. lia.
Qed.

Lemma occurrences_app n names1 names2 :
  occurrences n (names1 ++ names2)
  = (occurrences n names1 + occurrences n names2)%nat.
Proof. unfold occurrences. by rewrite filter_app, length_app. Qed.

Lemma occurrences_singleton n n' :
  occurrences n [n'] = if base.decide (n' = n) then 1%nat else 0%nat.
Proof.
  unfold occurrences. rewrite filter_cons.
  by destruct (base.decide (n' = n)).
Qed.

Lemma occurrences_0 n names : occurrences n names = 0%nat ↔ n ∉ names.
Proof.
  unfold occurrences. induction names as [|x names IH].
  - split; [intros _; apply not_elem_of_nil | done].
  - rewrite filter_cons, not_elem_of_cons.
    destruct (base.decide (x = n)) as [->|Hne]; simpl.
    + split; [lia | intros [? _]; done].
    + rewrite IH. split; [intros ?; split; [congruence|done] | by intros [_ ?]].
Qed.

Lemma set_name_same (a : Agent W) : set_name a (name a) = a.
Proof. by destruct a. Qed.

(** The renaming loop, after the prefix [l] of the roster [l ++ rest]. *)
Lemma rename_loop_prefix l rest :
  ∃ name_counts,
    foldl rename_step (∅, l ++ rest) (enumerate l)
    = (name_counts,
       imap (λ i a, set_name a
                      (renamed (name <$> l ++ rest) i (name a))) l ++ rest)
    ∧ ∀ n, name_counts !! n =
           match occurrences n (name <$> l) with
           | O => None
           | Datatypes.S k => Some (Z.of_nat k)
           end.
Proof.
  revert rest. induction l as [|x l IH] using rev_ind; intros rest.
  - exists ∅. split; [done|]. intros n. by rewrite lookup_empty.
  - destruct (IH (x :: rest)) as (nc & Hloop & Hnc).
    unfold enumerate in *. rewrite length_app. simpl length.
    rewrite Nat.add_1_r, seq_S, zip_with_app by (by rewrite length_seq).
    simpl zip_with. rewrite foldl_snoc. rewrite <- (assoc_L (++)). simpl app.
    rewrite Hloop. clear Hloop.
    rewrite imap_app. simpl imap. rewrite Nat.add_0_r.
    assert (take (length l) (name <$> l ++ x :: rest) = name <$> l) as Htake.
    { rewrite fmap_app, <- (length_fmap name l). apply take_app_length. }
    unfold renamed at 3. rewrite Htake.
    unfold rename_step. rewrite (Hnc (name x)).
    destruct (occurrences (name x) (name <$> l)) as [|k] eqn:Hocc.
    + exists (<[name x := 0]> nc). split.
      * rewrite set_name_same. by rewrite <- (assoc_L (++)).
      * intros n. rewrite fmap_app, occurrences_app. simpl fmap.
        rewrite occurrences_singleton.
        destruct (base.decide (name x = n)) as [<-|Hne].
        -- rewrite lookup_insert_eq, Hocc. done.
        -- rewrite lookup_insert_ne by done. rewrite Nat.add_0_r. apply Hnc.
    + exists (<[name x := Z.of_nat k + 1]> nc). split.
      * f_equal. rewrite <- (assoc_L (++)). simpl app.
        replace (length l) with (length (imap (λ i a, set_name a
          (renamed (name <$> l ++ x :: rest) i (name a))) l) + 0)%nat at 1
          by (rewrite length_imap; lia).
        rewrite insert_app_r. simpl.
        by replace (Z.of_nat k + 1) with (Z.of_nat (Datatypes.S k)) by lia.
      * intros n. rewrite fmap_app, occurrences_app. simpl fmap.
        rewrite occurrences_singleton.
        destruct (base.decide (name x = n)) as [<-|Hne].
        -- rewrite lookup_insert_eq, Hocc. simpl.
           rewrite Nat.add_1_r. f_equal. lia.
        -- rewrite lookup_insert_ne by done. rewrite Nat.add_0_r. apply Hnc.
Qed.

Lemma renamed_roster_NoDup agents :
  NoDup (name <$> agents) → renamed_roster agents = agents.
Proof.
  intros Hnd. unfold renamed_roster. apply list_eq. intros i.
  rewrite list_lookup_imap.
  destruct (agents !! i) as [a|] eqn:Hi; simpl; [|done].
  f_equal. unfold renamed.
  assert (occurrences (name a) (take i (name <$> agents)) = 0%nat) as ->.
  { apply occurrences_0. intros Hin.
    apply list_elem_of_lookup in Hin as [j Hj].
    pose proof (lookup_take_Some (name <$> agents) i j (name a)) as [Ht _].
    destruct (Ht Hj) as [Hj' Hlt].
    assert ((name <$> agents) !! i = Some (name a)) as Hi'.
    { by rewrite list_lookup_fmap, Hi. }
    pose proof (NoDup_lookup _ _ _ _ Hnd Hj' Hi'). lia. }
  apply set_name_same.
Qed.

(** Building a tournament on a roster that holds an agent object of its
    own at every position does not raise, and the roster it holds is the
    given one with names changed as follows, in roster order: an agent with
    no earlier agent of the same name keeps its name, and an agent with
    [k >= 1] earlier agents of the same name [Name] is called [Name_k];
    the agents keep their [decide] and [reset]. *)
Lemma init_renames (config : GameConfig) agents :
  (2 ≤ length agents)%nat →
  Tournament.init config agents
    = Return (Tournament.mk config (renamed_roster agents)) ∧
  length (renamed_roster agents) = length agents ∧
  (∀ i a, agents !! i = Some a →
     ∃ a', renamed_roster agents !! i = Some a' ∧
           decide a' = decide a ∧ reset a' = reset a ∧
           name a' = renamed (name <$> agents) i (name a)).
Proof.
  intros Hlen. split; [|split].
  - unfold init, _validate_agents.
    rewrite bool_decide_eq_false_2 by lia.
    case_bool_decide as Hdup.
    + destruct (rename_loop_prefix agents []) as (nc & Hloop & _).
      rewrite !app_nil_r in Hloop. by rewrite Hloop.
    + rewrite renamed_roster_NoDup; [done|].
      apply size_list_to_set_NoDup. lia.
  - apply length_imap.
  - intros i a Hi. unfold renamed_roster. rewrite list_lookup_imap, Hi.
    simpl. eexists. split; [done|]. done.
Qed.

Lemma deref_app (objects : list (Agent W)) (l1 l2 : list nat) :
  deref objects (l1 ++ l2) = deref objects l1 ++ deref objects l2.
Proof. apply omap_app. Qed.

Lemma deref_cons (objects : list (Agent W)) (x : nat) (l : list nat) :
  deref objects (x :: l)
  = match objects !! x with
    | Some a => a :: deref objects l
    | None => deref objects l
    end.
Proof. done. Qed.

Lemma deref_ext (objects objects' : list (Agent W)) (l : list nat) :
  (∀ addr, addr ∈ l → objects' !! addr = objects !! addr) →
  deref objects' l = deref objects l.
Proof.
  induction l as [|x l IH]; intros H; [done|].
  rewrite !deref_cons, H by left. rewrite IH; [done|].
  intros addr Hin. apply H. by right.
Qed.

Lemma length_deref (objects : list (Agent W)) (l : list nat) :
  allocated objects l → length (deref objects l) = length l.
Proof.
  induction 1 as [|x l Hx Hl IH]; [done|].
  destruct (lookup_lt_is_Some_2 objects x Hx) as [a Ha].
  rewrite deref_cons, Ha. simpl. by rewrite IH.
Qed.

(** The renaming loop over references, after the prefix [l] of a roster
    [l ++ rest] that lists no object twice. *)
Lemma rename_objects_prefix (objects : list (Agent W)) (l rest : list nat) :
  NoDup (l ++ rest) →
  allocated objects (l ++ rest) →
  ∃ name_counts objects',
    foldl rename_object_step (∅, objects) l = (name_counts, objects') ∧
    length objects' = length objects ∧
    (∀ addr, addr ∉ l → objects' !! addr = objects !! addr) ∧
    deref objects' l
    = imap (λ i a, set_name a
                     (renamed (name <$> deref objects (l ++ rest)) i
                        (name a)))
        (deref objects l) ∧
    ∀ n, name_counts !! n =
         match occurrences n (name <$> deref objects l) with
         | O => None
         | Datatypes.S k => Some (Z.of_nat k)
         end.
Proof.
  revert rest. induction l as [|x l IH] using rev_ind; intros rest Hnd Hal.
  - exists ∅, objects. by split_and!.
  - rewrite <- (assoc_L (++)) in Hnd, Hal. simpl in Hnd, Hal.
    destruct (IH (x :: rest) Hnd Hal)
      as (nc & objects' & Hloop & Hlen & Hout & Hder & Hnc).
    apply NoDup_app in Hnd as (_ & Hnotin & _).
    assert (x ∉ l) as Hx.
    { intros Hin. apply (Hnotin x Hin). left. }
    assert (x < length objects)%nat as Hlt.
    { unfold allocated in Hal. rewrite Forall_app, Forall_cons in Hal.
      by destruct Hal as (_ & ? & _). }
    destruct (lookup_lt_is_Some_2 objects x Hlt) as [a Ha].
    assert (deref objects (l ++ [x]) = deref objects l ++ [a]) as Hda.
    { by rewrite deref_app, (deref_cons objects x []), Ha. }
    assert (take (length (deref objects l))
              (name <$> deref objects ((l ++ [x]) ++ rest))
            = name <$> deref objects l) as Htake.
    { rewrite <- (assoc_L (++)), deref_app, fmap_app.
      rewrite <- (length_fmap name (deref objects l)).
      apply take_app_length. }
    rewrite foldl_snoc, Hloop. unfold rename_object_step.
    rewrite (Hout x Hx), Ha, (Hnc (name a)).
    rewrite Hda, imap_app. simpl imap. rewrite Nat.add_0_r.
    unfold renamed at 2. rewrite Htake.
    destruct (occurrences (name a) (name <$> deref objects l)) as [|k]
      eqn:Hocc.
    + exists (<[name a := 0]> nc), objects'. split_and!; try done.
      * intros addr Hnin. apply Hout. intros Hin. apply Hnin.
        apply elem_of_app. by left.
      * rewrite deref_app, Hder, <- (assoc_L (++)). simpl app. f_equal.
        rewrite ?deref_cons, (Hout x Hx), Ha.
        by rewrite set_name_same.
      * intros n. rewrite fmap_app, occurrences_app. simpl fmap.
        rewrite occurrences_singleton.
        destruct (base.decide (name a = n)) as [<-|Hne].
        -- rewrite lookup_insert_eq, Hocc. done.
        -- rewrite lookup_insert_ne by done. rewrite Nat.add_0_r. apply Hnc.
    + eexists (<[name a := Z.of_nat k + 1]> nc), _. split; [done|].
      split_and!.
      * by rewrite length_insert.
      * intros addr Hnin. rewrite list_lookup_insert_ne.
        -- apply Hout. intros Hin. apply Hnin. apply elem_of_app. by left.
        -- intros ->. apply Hnin. apply elem_of_app. right. left.
      * rewrite deref_app.
        rewrite (deref_ext objects' (<[x:=_]> objects') l).
        -- rewrite Hder, <- (assoc_L (++)). simpl app. f_equal.
           rewrite ?deref_cons.
           rewrite list_lookup_insert_eq by (by rewrite Hlen).
           by replace (Z.of_nat k + 1) with (Z.of_nat (Datatypes.S k))
             by lia.
        -- intros addr Hin. apply list_lookup_insert_ne. by intros ->.
      * intros n. rewrite fmap_app, occurrences_app. simpl fmap.
        rewrite occurrences_singleton.
        destruct (base.decide (name a = n)) as [<-|Hne].
        -- rewrite lookup_insert_eq, Hocc. simpl.
           rewrite Nat.add_1_r. f_equal. lia.
        -- rewrite lookup_insert_ne by done. rewrite Nat.add_0_r. apply Hnc.
Qed.

(** C9, amended. Building a tournament on a roster of at least two agent
    objects that lists no object twice does not raise, and it renames the
    agents in roster order: an agent with no earlier agent of the same name
    keeps its name, and an agent with [k >= 1] earlier agents of the same
    name [Name] is called [Name_k] (the second occurrence [Name_1]).  The
    new name is written to the agent object, which keeps its [decide] and
    [reset]; objects that are not in the roster are left as they are.  The
    tournament is then the one [init] builds from the agents of the
    roster. *)
Theorem Tournament_init_renames (config : GameConfig)
    (objects : list (Agent W)) (roster : list nat) :
  (2 ≤ length roster)%nat →
  allocated objects roster →
  NoDup roster →
  ∃ objects',
    init_objects config objects roster
      = Return (Tournament.mk config
                  (renamed_roster (deref objects roster)), objects') ∧
    deref objects' roster = renamed_roster (deref objects roster) ∧
    length (deref objects' roster) = length roster ∧
    (∀ addr, addr ∉ roster → objects' !! addr = objects !! addr) ∧
    (∀ i a, deref objects roster !! i = Some a →
       ∃ a', deref objects' roster !! i = Some a' ∧
             decide a' = decide a ∧ reset a' = reset a ∧
             name a' = renamed (name <$> deref objects roster) i (name a)) ∧
    Tournament.init config (deref objects roster)
      = Return (Tournament.mk config (renamed_roster (deref objects roster))).
Proof.
  intros Hlen Hal Hnd.
  pose proof (length_deref objects roster Hal) as Hld.
  destruct (init_renames config (deref objects roster)) as (Hinit & Hl & Hi);
    [lia|].
  assert (∃ objects',
            _validate_agent_objects objects roster = Return objects' ∧
            deref objects' roster = renamed_roster (deref objects roster) ∧
            ∀ addr, addr ∉ roster → objects' !! addr = objects !! addr)
    as (objects' & Hval & Hder & Hout).
  { unfold _validate_agent_objects.
    rewrite bool_decide_eq_false_2 by lia.
    case_bool_decide as Hdup.
    - destruct (rename_objects_prefix objects roster [])
        as (nc & objects' & Hloop & _ & Hout & Hder & _).
      + by rewrite app_nil_r.
      + by rewrite app_nil_r.
      + rewrite app_nil_r in Hder. exists objects'. by rewrite Hloop.
    - exists objects. split; [done|]. split; [|done].
      rewrite renamed_roster_NoDup; [done|].
      apply size_list_to_set_NoDup. lia. }
  exists objects'. unfold init_objects. rewrite Hval, Hder.
  split_and!; try done. lia.
Qed.

End roster.

(** C9, the claim as stated fails: on a roster that lists one agent object
    named [X] at both of its positions the loop renames that object once,
    and both positions of the roster end with the name [X_1], where the
    claim gives [X] and [X_1]. *)
Lemma Tournament_init_aliased_roster :
  ¬ (∀ (config : GameConfig) (objects : list (Agent unit))
       (roster : list nat),
       (2 ≤ length roster)%nat →
       Tournament.allocated objects roster →
       ∃ t objects',
         Tournament.init_objects config objects roster
           = Return (t, objects') ∧
         name <$> Tournament.agents t
         = name <$> RosterSpec.renamed_roster
                      (Tournament.deref objects roster)).
Proof.
  intros H.
  destruct (H (mkGameConfig 5 3 1 0 3 2)
              [TitForTatAgent.new (Some "X")] [0; 0]%nat)
    as (t & objects' & Hinit & Hnames).
  - simpl. lia.
  - repeat constructor.
  - vm_compute in Hinit. injection Hinit as <- <-.
    vm_compute in Hnames. discriminate Hnames.
Qed.

Lemma Tournament_init_renames_witness :
  ∃ objects',
    Tournament.init_objects (mkGameConfig 5 3 1 0 3 2)
      [TitForTatAgent.new (W:=unit) (Some "X");
       AlwaysBeatAgent.new (Some "Y");
       AlwaysStillAgent.new (Some "X");
       AlwaysStillAgent.new (Some "X")] [0; 1; 2; 3]%nat
    = Return (Tournament.mk (mkGameConfig 5 3 1 0 3 2)
                (RosterSpec.renamed_roster
                   [TitForTatAgent.new (W:=unit) (Some "X");
                    AlwaysBeatAgent.new (Some "Y");
                    AlwaysStillAgent.new (Some "X");
                    AlwaysStillAgent.new (Some "X")]), objects') ∧
    name <$> Tournament.deref objects' [0; 1; 2; 3]%nat
    = ["X"; "Y"; "X_1"; "X_2"].
Proof.
  destruct (Tournament_init_renames (mkGameConfig 5 3 1 0 3 2)
    [TitForTatAgent.new (W:=unit) (Some "X");
     AlwaysBeatAgent.new (Some "Y");
     AlwaysStillAgent.new (Some "X");
     AlwaysStillAgent.new (Some "X")] [0; 1; 2; 3]%nat)
    as (objects' & Hinit & Hder & _).
  - simpl. lia.
  - repeat constructor.
  - apply (bool_decide_unpack _). reflexivity.
  - exists objects'. split; [exact Hinit|]. rewrite Hder. reflexivity.
Defined.

(** ** Running a tournament *)

Section tournament_run.
Context {W : Type}.

Import Tournament.

Lemma call_scores_get_025_scores (result : MatchResult.t) :
  call_scores "get_025_scores" result = Raise AttributeError.
Proof. reflexivity. Qed.

(** What [Tournament.run] does on a roster that starts with [a0], [a1]:
    the first pairing decides. *)
Lemma Tournament_run_first_pair (self : Tournament.t (W:=W)) (w : W)
    a0 a1 rest :
  agents self = a0 :: a1 :: rest →
  run self w =
    match Match.run (config self) a0 a1 w with
    | (Raise e, w') => (Raise e, w')
    | (Return _, w') => (Raise AttributeError, w')
    end.
Proof.
  intros Hags. unfold run, all_pairs. rewrite Hags.
  unfold enumerate. cbn [length seq zip_with for_each fst snd].
  unfold pair_body at 1. rewrite bool_decide_eq_true_2 by lia.
  unfold pair_body at 1. rewrite bool_decide_eq_false_2 by lia.
  destruct (Match.run (config self) a0 a1 w) as [[result|e] w']; [|done].
  by rewrite call_scores_get_025_scores.
Qed.

(** C1, as the code behaves. On every roster of at least two agents
    [Tournament.run] returns no ranking: after the first pairing it asks
    the match result for [get_025_scores], an attribute [MatchResult] does
    not have, and the [AttributeError] ends the run (unless that first
    pairing already ended in the [ValueError] of a protocol violation).
    No quartile and no mean of quartiles is ever computed. *)
Theorem Tournament_run_never_ranks (self : Tournament.t (W:=W)) (w : W) :
  (2 ≤ length (agents self))%nat →
  ∃ e w', run self w = (Raise e, w') ∧ (e = AttributeError ∨ e = ValueError).
Proof.
  intros Hlen.
  destruct (agents self) as [|a0 [|a1 rest]] eqn:Hags;
    [simpl in Hlen; lia | simpl in Hlen; lia |].
  rewrite (Tournament_run_first_pair self w a0 a1 rest Hags).
  destruct (Match.run (config self) a0 a1 w) as [[result|e] w'] eqn:Hrun.
  - exists AttributeError, w'. by split; [|left].
  - exists e, w'. split; [done|]. right.
    by apply run_raises_ValueError in Hrun.
Qed.

End tournament_run.

Lemma Tournament_run_never_ranks_witness :
  ∃ e w',
    Tournament.run
      (Tournament.mk (mkGameConfig 5 3 1 0 1 1)
         [AlwaysStillAgent.new (W:=unit) None; AlwaysBeatAgent.new None]) tt
    = (Raise e, w') ∧ (e = AttributeError ∨ e = ValueError).
Proof.
  apply (Tournament_run_never_ranks
    (Tournament.mk (mkGameConfig 5 3 1 0 1 1)
       [AlwaysStillAgent.new (W:=unit) None; AlwaysBeatAgent.new None]) tt).
  simpl. lia.
Defined.

(** The run on two constant agents, evaluated. *)
Lemma Tournament_run_two_agents :
  Tournament.run
    (Tournament.mk (mkGameConfig 5 3 1 0 1 1)
       [AlwaysStillAgent.new (W:=unit) None; AlwaysBeatAgent.new None]) tt
  = (Raise AttributeError, tt).
Proof. reflexivity. Qed.

(** ** The Hybrid agent *)

Section hybrid.
Import HybridAgent HybridSpec.
Implicit Types (h hs ho window : list action) (c : strategy).

Lemma is_valid_true a : is_valid a = true ↔ a = "beat" ∨ a = "still".
Proof.
  unfold is_valid. rewrite bool_decide_eq_true, !elem_of_cons.
  split; [|by intros [->| ->]; auto].
  intros [->|[->|H]]; auto. by apply not_elem_of_nil in H.
Qed.

Lemma py_slice_last_ten {A} (l : list A) :
  py_slice l (Some (-10)) None = drop (length l - 10) l.
Proof.
  unfold py_slice. change (-10 <? 0) with true. cbv iota.
  replace (Z.to_nat (Z.max 0 (Z.min (Z.of_nat (length l))
             (-10 + Z.of_nat (length l))))) with (length l - 10)%nat by lia.
  apply take_ge. rewrite length_drop. lia.
Qed.

Lemma py_slice_prefix {A} (l : list A) (i : nat) :
  py_slice l None (Some (Z.of_nat i)) = take i l.
Proof.
  unfold py_slice. rewrite drop_0.
  destruct (Z.ltb_spec (Z.of_nat i) 0) as [?|_]; [lia|].
  destruct (Nat.le_gt_cases i (length l)).
  - f_equal. lia.
  - rewrite !take_ge by lia. done.
Qed.

Lemma py_slice_empty {A} (l : list A) :
  py_slice l (Some (- (10 + Z.of_nat 0))) (Some (-10)) = [].
Proof.
  unfold py_slice. change (- (10 + Z.of_nat 0)) with (-10).
  by rewrite Z.sub_diag.
Qed.

Lemma last_take_S {A} (l : list A) (j : nat) :
  (j < length l)%nat → last (take (Datatypes.S j) l) = l !! j.
Proof.
  intros Hj. destruct (lookup_lt_is_Some_2 l j Hj) as [x Hx].
  by rewrite (take_S_r l j x Hx), last_snoc.
Qed.

Lemma foldl_ext_in {A B} (f g : A → B → A) (a : A) (l : list B) :
  (∀ acc x, x ∈ l → f acc x = g acc x) → foldl f a l = foldl g a l.
Proof.
  revert a. induction l as [|x l IH]; intros a Hfg; [done|]. simpl.
  rewrite (Hfg a x) by left. apply IH. intros acc y Hy. apply Hfg. by right.
Qed.

Lemma last_ten_length ho :
  (10 ≤ length ho)%nat → length (last_ten ho) = 10%nat.
Proof. intros H. unfold last_ten. rewrite length_drop. lia. Qed.

Lemma last_ten_valid ho i :
  Forall (λ a, is_valid a = true) ho → (10 ≤ length ho)%nat → (i < 10)%nat →
  is_valid (last_ten ho !!! i) = true ∧
  last_ten ho !! i = Some (last_ten ho !!! i).
Proof.
  intros Hv Hlen Hi.
  assert (is_Some (last_ten ho !! i)) as [a Ha].
  { apply lookup_lt_is_Some_2. rewrite last_ten_length; lia. }
  rewrite (list_lookup_total_correct _ _ _ Ha). split; [|done].
  assert (Forall (λ a, is_valid a = true) (last_ten ho)) as Hv'.
  { by apply Forall_drop. }
  rewrite Forall_forall in Hv'. apply Hv'.
  apply list_elem_of_lookup. by exists i.
Qed.

Lemma candidate_action_valid c ho i :
  Forall (λ a, is_valid a = true) ho → (10 ≤ length ho)%nat → (i < 10)%nat →
  is_valid (candidate_action c (last_ten ho) i) = true.
Proof.
  intros Hv Hlen Hi. destruct c; simpl; try done.
  destruct i as [|j]; [done|]. apply last_ten_valid; [done|done|lia].
Qed.

(** On "beat" and "still" the constants of [round_score] are the table
    with beat=5, wwin=3, llost=1, beaten=-2. *)
Lemma round_score_table a b :
  is_valid a = true → is_valid b = true →
  round_score a b = table_payoff hardcoded a b.
Proof.
  rewrite !is_valid_true. by intros [->| ->] [->| ->].
Qed.

(** One simulated round, when more than ten opponent actions are known. *)
Lemma simulate_round_spec c hs ho score i :
  Forall (λ a, is_valid a = true) ho → (10 < length ho)%nat → (i < 10)%nat →
  simulate_round (strategies c) hs ho
    (py_slice hs (Some (-10)) None) (py_slice ho (Some (-10)) None) score i
  = score + table_payoff hardcoded (candidate_action c (last_ten ho) i)
              (last_ten ho !!! i).
Proof.
  intros Hv Hlen Hi. unfold simulate_round.
  rewrite (bool_decide_eq_false_2 (length ho ≤ 10)%nat) by lia.
  rewrite andb_false_r. rewrite (py_slice_last_ten ho).
  fold (last_ten ho). f_equal.
  assert (strategies c
    (if bool_decide (0 < i)%nat
     then py_slice (py_slice hs (Some (-10)) None) None (Some (Z.of_nat i))
     else py_slice hs (Some (- (10 + Z.of_nat i))) (Some (-10)))
    (if bool_decide (0 < i)%nat
     then py_slice (last_ten ho) None (Some (Z.of_nat i))
     else py_slice ho (Some (- (10 + Z.of_nat i))) (Some (-10)))
    = candidate_action c (last_ten ho) i) as ->.
  { destruct c; try done. destruct i as [|j].
    - rewrite bool_decide_eq_false_2 by lia. simpl strategies.
      by rewrite py_slice_empty.
    - rewrite bool_decide_eq_true_2 by lia. simpl strategies.
      rewrite py_slice_prefix, last_take_S
        by (rewrite last_ten_length; lia).
      destruct (last_ten_valid ho j Hv) as [_ ->]; [lia|lia|done]. }
  apply round_score_table.
  - apply candidate_action_valid; [done|lia|done].
  - apply last_ten_valid; [done|lia|done].
Qed.

Lemma simulate_spec c hs ho :
  Forall (λ a, is_valid a = true) ho → (10 < length ho)%nat →
  foldl (simulate_round (strategies c) hs ho
           (py_slice hs (Some (-10)) None) (py_slice ho (Some (-10)) None))
        0 (seq 0 10)
  = retrospective_score hardcoded c (last_ten ho).
Proof.
  intros Hv Hlen. unfold retrospective_score. apply foldl_ext_in.
  intros acc i Hi. apply elem_of_seq in Hi.
  apply simulate_round_spec; [done|done|lia].
Qed.

(** The first of the greatest of three scores. *)
Lemma max_from_scored_highest (score : strategy → Z) :
  scored_highest score
    (max_from snd (tit_for_tat, score tit_for_tat)
       [(always_beat, score always_beat);
        (always_still, score always_still)]).1.
Proof.
  unfold scored_highest. simpl.
  destruct (Z.ltb_spec (score tit_for_tat) (score always_beat));
    simpl;
    [destruct (Z.ltb_spec (score always_beat) (score always_still))
    |destruct (Z.ltb_spec (score tit_for_tat) (score always_still))];
    simpl; (split; [intros []; lia | try done; lia]).
Qed.

Lemma _evaluate_strategies_spec hs ho s :
  Forall (λ a, is_valid a = true) ho → (10 < length ho)%nat →
  strategy_performance (_evaluate_strategies hs ho s)
    = (λ c, (c, retrospective_score hardcoded c (last_ten ho)))
        <$> strategy_names ∧
  scored_highest (λ c, retrospective_score hardcoded c (last_ten ho))
    (current_strategy (_evaluate_strategies hs ho s)) ∧
  rounds (_evaluate_strategies hs ho s) = rounds s ∧
  last_switch (_evaluate_strategies hs ho s) = last_switch s.
Proof.
  intros Hv Hlen. unfold _evaluate_strategies.
  rewrite bool_decide_eq_false_2 by lia.
  cbn [strategy_names foldl zero_performance fmap list_fmap].
  rewrite !simulate_spec by done.
  cbn [strategy_performance current_strategy rounds last_switch].
  split; [done|]. split; [|done].
  apply (max_from_scored_highest
    (λ c, retrospective_score hardcoded c (last_ten ho))).
Qed.

Lemma _evaluate_strategies_short hs ho s :
  (length ho < 10)%nat → _evaluate_strategies hs ho s = s.
Proof.
  intros H. unfold _evaluate_strategies.
  by rewrite bool_decide_eq_true_2 by lia.
Qed.

Lemma state_after_snoc {St}
    (dec : list action → list action → St → action * St) calls hs ho s :
  state_after dec (calls ++ [(hs, ho)]) s
  = (dec hs ho (state_after dec calls s)).2.
Proof.
  revert s. induction calls as [|[hs' ho'] calls IH]; intros s; [done|].
  simpl. apply IH.
Qed.

Lemma decide_counters hs ho s :
  rounds (decide hs ho s).2 = rounds s + 1 ∧
  last_switch (decide hs ho s).2 =
    if rounds s + 1 - last_switch s >=? 10 then rounds s + 1
    else last_switch s.
Proof.
  unfold decide. cbn [rounds last_switch].
  destruct (rounds s + 1 - last_switch s >=? 10); cbn [snd rounds last_switch];
    [|done].
  unfold _evaluate_strategies. by case_bool_decide.
Qed.

(** After a reset, [rounds] counts the calls and [last_switch] is the last
    multiple of ten reached. *)
Lemma Hybrid_counters calls s0 :
  rounds (state_after decide calls (reset s0)) = Z.of_nat (length calls) ∧
  last_switch (state_after decide calls (reset s0))
    = 10 * (Z.of_nat (length calls) `div` 10).
Proof.
  induction calls as [|[hs ho] calls [IHr IHl]] using rev_ind; [done|].
  rewrite state_after_snoc, length_app. simpl length.
  destruct (decide_counters hs ho (state_after decide calls (reset s0)))
    as [-> ->].
  rewrite IHr, IHl. split; [lia|].
  set (k := Z.of_nat (length calls)).
  replace (Z.of_nat (length calls + 1)) with (k + 1) by lia.
  assert (0 <= k) by lia.
  pose proof (Z.div_mod k 10 ltac:(lia)).
  pose proof (Z.mod_pos_bound k 10 ltac:(lia)).
  destruct (Z.geb_spec (k + 1 - 10 * (k `div` 10)) 10).
  - assert ((k + 1) `div` 10 = k `div` 10 + 1) as ->; [|lia].
    symmetry. apply (Z.div_unique (k + 1) 10 (k `div` 10 + 1) 0); lia.
  - f_equal. apply (Z.div_unique (k + 1) 10 (k `div` 10) (k `mod` 10 + 1));
      lia.
Qed.

(** C3, amended. A [decide] call re-evaluates when ten calls have passed
    since the last re-evaluation, which after a reset is every tenth call.
    A re-evaluation that finds more than ten opponent actions scores each of
    tit-for-tat, always-defect and always-cooperate against the last ten
    opponent actions with the payoff values written in the code (5, 3, 1
    and -2, whatever the configuration is) and selects the candidate that
    scored highest, the earliest one on a tie; with fewer than ten it keeps
    the selection.  Every call answers with the selected candidate, and a
    call that does not re-evaluate keeps the selection. *)
Theorem Hybrid_decide_spec hs ho s :
  Forall (λ a, is_valid a = true) ho →
  let a := (decide hs ho s).1 in
  let s' := (decide hs ho s).2 in
  let score c := retrospective_score hardcoded c (last_ten ho) in
  a = strategies (current_strategy s') hs ho ∧
  rounds s' = rounds s + 1 ∧
  (rounds s + 1 - last_switch s >= 10 →
     last_switch s' = rounds s + 1 ∧
     ((10 < length ho)%nat →
        strategy_performance s' = (λ c, (c, score c)) <$> strategy_names ∧
        scored_highest score (current_strategy s')) ∧
     ((length ho < 10)%nat →
        current_strategy s' = current_strategy s ∧
        strategy_performance s' = strategy_performance s)) ∧
  (rounds s + 1 - last_switch s < 10 →
     current_strategy s' = current_strategy s ∧
     strategy_performance s' = strategy_performance s ∧
     last_switch s' = last_switch s) ∧
  (∀ calls s0,
     s = state_after decide calls (reset s0) →
     (rounds s + 1 - last_switch s >= 10 ↔
      (Z.of_nat (length calls) + 1) `mod` 10 = 0)).
Proof.
  intros Hv a s' score.
  destruct (decide_counters hs ho s) as [Hr Hl]. fold s' in Hr, Hl.
  split; [done|]. split; [done|]. split; [|split].
  - intros Htrig. rewrite (proj2 (Z.geb_le _ _)) in Hl by lia.
    split; [done|]. subst s'. unfold decide. cbn [rounds last_switch].
    rewrite (proj2 (Z.geb_le _ _)) by lia. cbn [snd]. split.
    + intros Hlen.
      destruct (_evaluate_strategies_spec hs ho
        (mk (current_strategy s) (strategy_performance s) (rounds s + 1)
            (last_switch s)) Hv Hlen) as (Hp & Hc & _).
      by cbn [strategy_performance current_strategy].
    + intros Hlen. by rewrite _evaluate_strategies_short.
  - intros Hno. subst s'. unfold decide in *. cbn [rounds last_switch] in *.
    destruct (Z.geb_spec (rounds s + 1 - last_switch s) 10); [lia|done].
  - intros calls s0 ->. destruct (Hybrid_counters calls s0) as [-> ->].
    set (k := Z.of_nat (length calls)).
    assert (0 <= k) by lia.
    pose proof (Z.div_mod k 10 ltac:(lia)).
    pose proof (Z.mod_pos_bound k 10 ltac:(lia)).
    split.
    + intros Hge. symmetry.
      apply (Z.mod_unique (k + 1) 10 (k `div` 10 + 1) 0); lia.
    + intros Hmod.
      pose proof (Z.div_mod (k + 1) 10 ltac:(lia)) as Hdm.
      rewrite Hmod in Hdm.
      assert ((k + 1) `div` 10 = k `div` 10 + 1) by lia. lia.
Qed.

(** C3, the claim as stated fails: the scores a re-evaluation stores are
    not those of the configured payoff table.  Under the default
    configuration (5, 3, 1, 0) and ten defections, always-cooperate is
    scored -20 by the code and 0 by the table. *)
Lemma Hybrid_scores_ignore_config :
  ¬ (∀ (config : GameConfig) hs ho s,
       valid config →
       Forall (λ a, is_valid a = true) ho →
       (10 < length ho)%nat →
       rounds s + 1 - last_switch s >= 10 →
       strategy_performance (decide hs ho s).2
       = (λ c, (c, retrospective_score config c (last_ten ho)))
           <$> strategy_names).
Proof.
  intros H.
  specialize (H (mkGameConfig 5 3 1 0 500 30)
                (replicate 19 "still") (replicate 19 "beat")
                (mk tit_for_tat zero_performance 19 10)
                eq_refl).
  assert (Forall (λ a, is_valid a = true) (replicate 19 "beat")) as Hv.
  { by apply Forall_replicate. }
  specialize (H Hv ltac:(simpl; lia) ltac:(simpl; lia)).
  vm_compute in H. discriminate H.
Qed.

End hybrid.

Lemma Hybrid_decide_spec_witness :
  HybridAgent.strategy_performance
    (HybridAgent.decide (replicate 19 "still") (replicate 19 "beat")
       (HybridAgent.mk HybridAgent.tit_for_tat HybridAgent.zero_performance
          19 10)).2
  = [(HybridAgent.tit_for_tat, 7); (HybridAgent.always_beat, 10);
     (HybridAgent.always_still, -20)] ∧
  HybridAgent.current_strategy
    (HybridAgent.decide (replicate 19 "still") (replicate 19 "beat")
       (HybridAgent.mk HybridAgent.tit_for_tat HybridAgent.zero_performance
          19 10)).2
  = HybridAgent.always_beat.
Proof.
  assert (Forall (λ a, is_valid a = true) (replicate 19 "beat")) as Hv.
  { by apply Forall_replicate. }
  destruct (Hybrid_decide_spec (replicate 19 "still") (replicate 19 "beat")
    (HybridAgent.mk HybridAgent.tit_for_tat HybridAgent.zero_performance
       19 10) Hv) as (_ & _ & Htrig & _).
  destruct (Htrig ltac:(simpl; lia)) as (_ & Heval & _).
  destruct (Heval ltac:(simpl; lia)) as [Hp _].
  split; [exact Hp|reflexivity].
Defined.

(** * Further properties *)

(** ** The payoff table and the totals of a match *)

Section engine_more.
Context {W : Type}.
Variable config : GameConfig.
Variables agent_a agent_b : Agent W.

Import Match MatchResult.

Abbreviation round_body := (round_body config agent_a agent_b).
Abbreviation match_body := (match_body config agent_a agent_b).
Abbreviation _run_single_match := (_run_single_match config agent_a agent_b).
Abbreviation run_state := (run_state config agent_a agent_b).
Abbreviation run := (run config agent_a agent_b).

Lemma is_valid_cases a : is_valid a = true → a = "beat" ∨ a = "still".
Proof.
  unfold is_valid. rewrite bool_decide_eq_true, !elem_of_cons.
  intros [->|[->|H]]; auto. by apply not_elem_of_nil in H.
Qed.

Lemma reward_exchange (a b : action) :
  is_valid a = true → is_valid b = true →
  _calculate_reward config b a
  = ((_calculate_reward config a b).2, (_calculate_reward config a b).1).
Proof.
  intros Ha Hb.
  by destruct (is_valid_cases a Ha) as [-> | ->],
              (is_valid_cases b Hb) as [-> | ->].
Qed.

(** X1. On the two valid actions the payoff table is symmetric: exchanging
    the two actions exchanges the two rewards.  The table has no case for
    other strings: a first action that is not valid is paid as "still"
    against "beat", whatever the second action is. *)
Theorem _calculate_reward_symmetric (a b : action) :
  (is_valid a = true → is_valid b = true →
   _calculate_reward config b a
   = ((_calculate_reward config a b).2, (_calculate_reward config a b).1)) ∧
  (is_valid a = false →
   _calculate_reward config a b = (beaten config, beat config)).
Proof.
  split; [apply reward_exchange|].
  unfold is_valid. rewrite bool_decide_eq_false, !not_elem_of_cons.
  intros (Hb & Hs & _). unfold _calculate_reward.
  by rewrite !(bool_decide_eq_false_2 (a = _)) by done.
Qed.

Lemma _calculate_reward_bounds (a b : action) :
  valid config →
  beaten config <= (_calculate_reward config a b).1 <= beat config ∧
  beaten config <= (_calculate_reward config a b).2 <= beat config.
Proof.
  intros Hv. apply valid_inv in Hv. unfold _calculate_reward.
  repeat case_match; simpl; lia.
Qed.

(** What the frame of a match holds after [k] rounds. *)
Lemma frame_invariant xs w st' :
  for_each xs round_body (w, frame0) = (st', None) →
  (total_a st'.2, total_b st'.2)
    = replay config (history_a st'.2) (history_b st'.2) ∧
  (valid config →
   Z.of_nat (length xs) * beaten config <= total_a st'.2
     <= Z.of_nat (length xs) * beat config ∧
   Z.of_nat (length xs) * beaten config <= total_b st'.2
     <= Z.of_nat (length xs) * beat config).
Proof.
  pose (I := λ (k : nat) (st : W * frame),
    length (history_a st.2) = length (history_b st.2) ∧
    (total_a st.2, total_b st.2)
      = replay config (history_a st.2) (history_b st.2) ∧
    (valid config →
     Z.of_nat k * beaten config <= total_a st.2 <= Z.of_nat k * beat config ∧
     Z.of_nat k * beaten config <= total_b st.2
       <= Z.of_nat k * beat config)).
  intros Hloop. enough (I (length xs) st') as (_ & ? & ?) by done.
  revert Hloop. apply (for_each_invariant I).
  - intros k x [w1 f1] [w2 f2] (Hlen & Hrep & Hbounds) Hstep.
    apply round_body_normal in Hstep as (a & w1' & b & _ & _ & _ & _ & ->).
    unfold I; simpl in *. split_and!.
    + rewrite !length_app. simpl. lia.
    + unfold replay in *. rewrite zip_with_app by done. simpl zip_with.
      rewrite foldl_snoc, <- Hrep. simpl.
      by destruct (_calculate_reward config a b).
    + intros Hv. destruct (Hbounds Hv) as [Hta Htb].
      pose proof (_calculate_reward_bounds a b Hv) as [Hba Hbb]. lia.
  - unfold I. simpl. split_and!; try done; lia.
Qed.

(** What the record of a run holds after [k] matches. *)
Lemma result_invariant xs w st' :
  for_each xs match_body (w, MatchResult.init) = (st', None) →
  zip (scores_a st'.2) (scores_b st'.2)
    = (λ h : list action * list action, replay config h.1 h.2)
        <$> zip (histories_a st'.2) (histories_b st'.2) ∧
  (valid config →
   Forall (λ s, rounds_per_match config * beaten config <= s
                <= rounds_per_match config * beat config) (scores_a st'.2) ∧
   Forall (λ s, rounds_per_match config * beaten config <= s
                <= rounds_per_match config * beat config) (scores_b st'.2)).
Proof.
  pose (I := λ (k : nat) (st : W * MatchResult.t),
    length (scores_a st.2) = length (scores_b st.2) ∧
    length (histories_a st.2) = length (histories_b st.2) ∧
    zip (scores_a st.2) (scores_b st.2)
      = (λ h : list action * list action, replay config h.1 h.2)
          <$> zip (histories_a st.2) (histories_b st.2) ∧
    (valid config →
     Forall (λ s, rounds_per_match config * beaten config <= s
                  <= rounds_per_match config * beat config) (scores_a st.2) ∧
     Forall (λ s, rounds_per_match config * beaten config <= s
                  <= rounds_per_match config * beat config) (scores_b st.2))).
  intros Hloop. enough (I (length xs) st') as (_ & _ & ? & ?) by done.
  revert Hloop. apply (for_each_invariant I).
  - intros k x [w1 r1] st2 (Hl1 & Hl2 & Hrep & Hs) Hstep.
    apply match_body_normal in Hstep as (w3 & f & Hrun & ->).
    destruct (frame_invariant _ _ _ Hrun) as (Hf & Hfb).
    unfold I, add_match; simpl in *. split_and!.
    + rewrite !length_app. simpl. lia.
    + rewrite !length_app. simpl. lia.
    + rewrite !zip_with_app by done. rewrite fmap_app, Hrep. simpl.
      by rewrite Hf.
    + intros Hv. destruct (Hs Hv) as [Hsa Hsb]. destruct (Hfb Hv) as [Ha Hb].
      unfold range in Ha, Hb. rewrite length_seq in Ha, Hb.
      pose proof (valid_inv _ Hv) as (_ & _ & _ & HR & _).
      rewrite Z2Nat.id in Ha, Hb by lia.
      split; (apply Forall_app; split; [done|]; by apply Forall_singleton).
  - unfold I. simpl. split_and!; done.
Qed.

(** X2. Under a valid configuration every per-match score of a returned
    record lies between [rounds_per_match * beaten] and
    [rounds_per_match * beat], for both agents. *)
Theorem Match_run_score_bounds (w : W) result w' :
  valid config →
  run w = (Return result, w') →
  Forall (λ s, rounds_per_match config * beaten config <= s
               <= rounds_per_match config * beat config) (scores_a result) ∧
  Forall (λ s, rounds_per_match config * beaten config <= s
               <= rounds_per_match config * beat config) (scores_b result).
Proof.
  intros Hv Hrun. apply run_returns_inv in Hrun.
  destruct (result_invariant _ _ _ Hrun) as (_ & Hb). by apply Hb.
Qed.

(** X3. The scores of a returned record are the scores of its histories:
    paying the stored histories of match [i] round by round with the
    payoff table gives the stored scores of match [i]. *)
Theorem Match_run_scores_replay (w : W) result w' :
  run w = (Return result, w') →
  zip (scores_a result) (scores_b result)
  = (λ h : list action * list action, replay config h.1 h.2)
      <$> zip (histories_a result) (histories_b result).
Proof.
  intros Hrun. apply run_returns_inv in Hrun.
  by destruct (result_invariant _ _ _ Hrun) as (? & _).
Qed.

End engine_more.

(** ** Repeated matches *)

Section repeated_matches_from.
Context {W : Type}.
Variable config : GameConfig.
Variables agent_a agent_b : Agent W.
Variable w0 : W.
Hypothesis resets_after :
  ∀ w' f,
    Match._run_single_match config agent_a agent_b w0 = ((w', f), None) →
    reset agent_b (reset agent_a w') = w0.

Import Match MatchResult.

Lemma add_match_repeatedly {X} (xs : list X) r ta tb ha hb :
  foldl (λ r _, add_match r ta tb ha hb) r xs
  = mk (scores_a r ++ replicate (length xs) ta)
       (scores_b r ++ replicate (length xs) tb)
       (histories_a r ++ replicate (length xs) ha)
       (histories_b r ++ replicate (length xs) hb).
Proof.
  revert r. induction xs as [|x xs IH]; intros r.
  - simpl. rewrite !app_nil_r. by destruct r.
  - simpl foldl. rewrite IH. unfold add_match. simpl.
    by rewrite <- !(assoc_L (++)).
Qed.

Lemma matches_loop_constant (xs : list nat) w r :
  xs ≠ [] →
  reset agent_b (reset agent_a w) = w0 →
  for_each xs (match_body config agent_a agent_b) (w, r)
  = match _run_single_match config agent_a agent_b w0 with
    | ((w', f), None) =>
        ((w', foldl (λ r _, add_match r (total_a f) (total_b f)
                              (history_a f) (history_b f)) r xs), None)
    | ((w', _), Some e) => ((w', r), Some e)
    end.
Proof.
  revert w r. induction xs as [|x xs IH]; intros w r Hne Hw; [done|].
  simpl for_each. unfold match_body at 1. rewrite Hw.
  destruct (_run_single_match config agent_a agent_b w0)
    as [[w' f] [e|]] eqn:Hsingle; [done|].
  destruct xs as [|y xs]; [done|].
  rewrite IH; [done|done|]. by eapply resets_after.
Qed.

Lemma run_constant_reset (w : W) :
  0 < num_matches config →
  reset agent_b (reset agent_a w) = w0 →
  run config agent_a agent_b w
  = match _run_single_match config agent_a agent_b w0 with
    | ((w', f), None) =>
        (Return (mk (replicate (Z.to_nat (num_matches config)) (total_a f))
                    (replicate (Z.to_nat (num_matches config)) (total_b f))
                    (replicate (Z.to_nat (num_matches config)) (history_a f))
                    (replicate (Z.to_nat (num_matches config))
                       (history_b f))), w')
    | ((w', _), Some e) => (Raise e, w')
    end.
Proof.
  intros HM Hw. unfold run, run_state, range.
  rewrite matches_loop_constant.
  - destruct (_run_single_match config agent_a agent_b w0)
      as [[w' f] [e|]]; [done|].
    by rewrite add_match_repeatedly, length_seq.
  - intros Hnil. apply (f_equal length) in Hnil.
    rewrite length_seq in Hnil. simpl in Hnil. lia.
  - done.
Qed.

End repeated_matches_from.

Section repeated_matches.
Context {W : Type}.
Variable config : GameConfig.
Variables agent_a agent_b : Agent W.
Variable w0 : W.
Hypothesis resets : ∀ w, reset agent_b (reset agent_a w) = w0.

Import Match MatchResult.

(** X4. When resetting both agents always leads to the same world (agents
    that keep no state, or whose [reset] restores all of it), the matches
    of a run are copies of one match: within the float range, where the
    closing log line returns, [Match.run] returns [num_matches] times the
    totals and histories of the match played from that world, or raises
    what that match raises. *)
Theorem Match_run_repeats_one_match (w : W) :
  0 < num_matches config →
  within_float_range config →
  run_logged config agent_a agent_b w
  = match _run_single_match config agent_a agent_b w0 with
    | ((w', f), None) =>
        (Return (mk (replicate (Z.to_nat (num_matches config)) (total_a f))
                    (replicate (Z.to_nat (num_matches config)) (total_b f))
                    (replicate (Z.to_nat (num_matches config)) (history_a f))
                    (replicate (Z.to_nat (num_matches config))
                       (history_b f))), w')
    | ((w', _), Some e) => (Raise e, w')
    end.
Proof.
  intros HM Hw. rewrite run_logged_run by done. by apply run_constant_reset.
Qed.

End repeated_matches.

Lemma Match_run_repeats_one_match_witness :
  run_logged (mkGameConfig 5 3 1 0 3 2)
    (TitForTatAgent.new None) (AlwaysBeatAgent.new None) tt
  = (Return (MatchResult.mk [2; 2] [7; 7]
       [["still"; "beat"; "beat"]; ["still"; "beat"; "beat"]]
       [["beat"; "beat"; "beat"]; ["beat"; "beat"; "beat"]]), tt).
Proof.
  apply (Match_run_repeats_one_match (mkGameConfig 5 3 1 0 3 2)
    (TitForTatAgent.new None) (AlwaysBeatAgent.new None) tt
    (λ w, match w with tt => eq_refl end) tt).
  - simpl. lia.
  - vm_compute. reflexivity.
Defined.

(** ** Exchanging the seats *)

Section seats.
Context {W : Type}.
Variable config : GameConfig.
Variables (name_a name_b : string).
Variables (decide_a decide_b : list action → list action → action).

Import Match MatchResult.

Lemma for_each_map {X S} (φ : S → S) (xs : list X)
    (body1 body2 : X → S → S * option exn) (s : S) :
  (∀ x s, body2 x (φ s) = let '(s', o) := body1 x s in (φ s', o)) →
  for_each xs body2 (φ s) = let '(s', o) := for_each xs body1 s in (φ s', o).
Proof.
  intros Hb. revert s. induction xs as [|x xs IH]; intros s; [done|].
  simpl. rewrite Hb. destruct (body1 x s) as [s1 [e|]]; simpl; [done|].
  apply IH.
Qed.

Lemma round_body_swap i (w : W) f :
  round_body config (stateless name_b decide_b) (stateless name_a decide_a)
    i (w, swap_frame f)
  = let '(st, o) := round_body config (stateless name_a decide_a)
                      (stateless name_b decide_b) i (w, f) in
    ((st.1, swap_frame st.2), o).
Proof.
  unfold round_body, stateless, swap_frame. simpl.
  destruct (is_valid (decide_a (history_a f) (history_b f))) eqn:Ha,
           (is_valid (decide_b (history_b f) (history_a f))) eqn:Hb;
    simpl; try done.
  rewrite (reward_exchange config _ _ Ha Hb).
  by destruct (_calculate_reward config _ _).
Qed.

Lemma _run_single_match_swap (w : W) :
  _run_single_match config (stateless name_b decide_b)
    (stateless name_a decide_a) w
  = let '(st, o) := _run_single_match config (stateless name_a decide_a)
                      (stateless name_b decide_b) w in
    ((st.1, swap_frame st.2), o).
Proof.
  unfold _run_single_match.
  apply (for_each_map (λ st : W * frame, (st.1, swap_frame st.2))
           (range (rounds_per_match config)) _ _ (w, frame0)).
  intros x [w1 f1]. apply round_body_swap.
Qed.

(** X5. For two agents without state the order of the seats does not
    matter: running B against A gives the record of running A against B
    with the two sides exchanged, and raises when that run raises. *)
Theorem Match_run_swap_seats (w : W) :
  run config (stateless name_b decide_b) (stateless name_a decide_a) w
  = match run config (stateless name_a decide_a)
            (stateless name_b decide_b) w with
    | (Return result, w') => (Return (swap_seats result), w')
    | (Raise e, w') => (Raise e, w')
    end.
Proof.
  unfold run, run_state.
  rewrite (for_each_map (λ st : W * MatchResult.t, (st.1, swap_seats st.2))
             (range (num_matches config))
             (match_body config (stateless name_a decide_a)
                (stateless name_b decide_b)) _ (w, MatchResult.init)).
  - by destruct (for_each _ _ _) as [[w' r'] [e|]].
  - intros x [w1 r1]. unfold match_body. simpl fst. simpl snd.
    change (reset (stateless name_a decide_a)
              (reset (stateless name_b decide_b) w1)) with w1.
    change (reset (stateless name_b decide_b)
              (reset (stateless name_a decide_a) w1)) with w1.
    rewrite _run_single_match_swap.
    by destruct (_run_single_match _ _ _ _) as [[w' f'] [e|]].
Qed.

End seats.

(** ** The statistics of a record *)

Section statistics.
Import MatchResult.

Lemma win_counts_from (l : list (Z * Z)) (wa wb d : Z) :
  ∃ wa' wb' d',
    foldl (λ (acc : Z * Z * Z) (scores : Z * Z),
             let '(win_a, win_b, draws) := acc in
             let '(score_a, score_b) := scores in
             if score_a >? score_b then (win_a + 1, win_b, draws)
             else if score_b >? score_a then (win_a, win_b + 1, draws)
             else (win_a, win_b, draws + 1)) (wa, wb, d) l
    = (wa', wb', d') ∧
    wa' = wa + Z.of_nat (length (filter (λ s : Z * Z, s.1 > s.2) l)) ∧
    wb' = wb + Z.of_nat (length (filter (λ s : Z * Z, s.2 > s.1) l)) ∧
    d' = d + Z.of_nat (length (filter (λ s : Z * Z, s.1 = s.2) l)) ∧
    wa' + wb' + d' = wa + wb + d + Z.of_nat (length l).
Proof.
  revert wa wb d. induction l as [|[sa sb] l IH]; intros wa wb d.
  - exists wa, wb, d. simpl. split_and!; try done; lia.
  - simpl foldl. rewrite !filter_cons. simpl.
    destruct (Z.gtb_spec sa sb) as [Hab|Hab];
      [|destruct (Z.gtb_spec sb sa) as [Hba|Hba]].
    + destruct (IH (wa + 1) wb d) as (wa' & wb' & d' & -> & -> & -> & -> & Hs).
      eexists _, _, _. split; [done|].
      rewrite (decide_True (P := sa > sb)) by lia.
      rewrite (decide_False (P := sb > sa)) by lia.
      rewrite (decide_False (P := sa = sb)) by lia.
      simpl length. split_and!; lia.
    + destruct (IH wa (wb + 1) d) as (wa' & wb' & d' & -> & -> & -> & -> & Hs).
      eexists _, _, _. split; [done|].
      rewrite (decide_True (P := sb > sa)) by lia.
      rewrite (decide_False (P := sa > sb)) by lia.
      rewrite (decide_False (P := sa = sb)) by lia.
      simpl length. split_and!; lia.
    + destruct (IH wa wb (d + 1)) as (wa' & wb' & d' & -> & -> & -> & -> & Hs).
      eexists _, _, _. split; [done|].
      rewrite (decide_True (P := sa = sb)) by lia.
      rewrite (decide_False (P := sa > sb)) by lia.
      rewrite (decide_False (P := sb > sa)) by lia.
      simpl length. split_and!; lia.
Qed.

(** X6. [get_win_count_info] reports three counts that are not negative
    and add up to the number of score pairs of the record (the shorter of
    the two score lists): every match is a win of A, a win of B, or a
    draw, and is counted once. *)
Theorem get_win_count_info_total (r : MatchResult.t) :
  ∃ win_a win_b draws,
    get_win_count_info r
    = "A胜:" +:+ str win_a +:+ " B胜:" +:+ str win_b
      +:+ " 平局:" +:+ str draws ∧
    0 <= win_a ∧ 0 <= win_b ∧ 0 <= draws ∧
    win_a + win_b + draws
    = Z.of_nat (length (scores_a r) `min` length (scores_b r)).
Proof.
  unfold get_win_count_info, win_counts.
  destruct (win_counts_from (zip (scores_a r) (scores_b r)) 0 0 0)
    as (wa & wb & d & -> & Hwa & Hwb & Hd & Hsum).
  exists wa, wb, d. rewrite length_zip_with in Hsum.
  split_and!; try done; lia.
Qed.

(** X7. Read from the other seat, the wins of A and the wins of B change
    places and the draws stay. *)
Theorem win_counts_swap_seats (r : MatchResult.t) :
  win_counts (swap_seats r)
  = ((win_counts r).1.2, (win_counts r).1.1, (win_counts r).2).
Proof.
  unfold win_counts, swap_seats. simpl.
  destruct (win_counts_from (zip (scores_a r) (scores_b r)) 0 0 0)
    as (wa & wb & d & -> & -> & -> & -> & _).
  destruct (win_counts_from (zip (scores_b r) (scores_a r)) 0 0 0)
    as (wa' & wb' & d' & -> & -> & -> & -> & _).
  simpl.
  assert (∀ (P Q : Z * Z → Prop) `{∀ s, Decision (P s)} `{∀ s, Decision (Q s)}
            (l1 l2 : list Z),
            (∀ s : Z * Z, P s ↔ Q (s.2, s.1)) →
            length (filter P (zip l1 l2)) = length (filter Q (zip l2 l1)))
    as Hflip.
  { intros P Q ?? l1. induction l1 as [|x l1 IH]; intros [|y l2] HPQ;
      try done. simpl. rewrite !filter_cons.
    destruct (base.decide (P (x, y))) as [HP|HP];
      destruct (base.decide (Q (y, x))) as [HQ|HQ]; simpl;
      try (by rewrite (IH l2 HPQ));
      exfalso; apply HPQ in HP || (apply HP, HPQ); done. }
  rewrite (Hflip (λ s, s.1 > s.2) (λ s, s.2 > s.1) _ _
             (scores_b r) (scores_a r)) by done.
  rewrite (Hflip (λ s, s.2 > s.1) (λ s, s.1 > s.2) _ _
             (scores_b r) (scores_a r)) by done.
  rewrite (Hflip (λ s, s.1 = s.2) (λ s, s.1 = s.2) _ _
             (scores_b r) (scores_a r)) by (intros [??]; simpl; split; done).
  done.
Qed.

Lemma py_min_least x (l : list Z) :
  foldr Z.min x l ∈ x :: l ∧ Forall (λ y, foldr Z.min x l <= y) (x :: l).
Proof.
  induction l as [|y l [IHin IHle]]; simpl.
  - split; [left|]. by apply Forall_singleton.
  - apply Forall_cons in IHle as [Hx Hl].
    destruct (Z.min_spec y (foldr Z.min x l)) as [[Hlt ->]|[Hge ->]].
    + split; [right; left|]. repeat constructor; try lia.
      eapply Forall_impl; [exact Hl|]. simpl. intros; lia.
    + split.
      * apply elem_of_cons in IHin as [->|Hin]; [left|right; by right].
      * repeat constructor; try lia. done.
Qed.

(** X8. [get_min_scores] returns, for each side, a score of that side that
    no score of that side is below, and [0] for a side without scores. *)
Theorem get_min_scores_least (r : MatchResult.t) :
  ∃ min_a min_b,
    get_min_scores r = Return (min_a, min_b) ∧
    least_or_zero (scores_a r) min_a ∧
    least_or_zero (scores_b r) min_b.
Proof.
  unfold get_min_scores.
  assert (∀ l, ∃ m, if_nonempty l (py_min l) 0 = Return m ∧ least_or_zero l m)
    as H.
  { intros [|x l]; [by exists 0|]. eexists. split; [done|].
    apply py_min_least. }
  destruct (H (scores_a r)) as (ma & -> & Ha).
  destruct (H (scores_b r)) as (mb & -> & Hb).
  by exists ma, mb.
Qed.

Lemma filter_length_prefix {A} (P : A → Prop) `{∀ x, Decision (P x)}
    (l : list A) (k : nat) :
  Forall P (take k l) → (k ≤ length l)%nat →
  (k ≤ length (filter P l))%nat.
Proof.
  intros HP Hk. rewrite <- (take_drop k l) at 1.
  rewrite filter_app, length_app.
  assert (filter P (take k l) = take k l) as ->.
  { clear Hk. induction (take k l) as [|x l' IH]; [done|].
    apply Forall_cons in HP as [Hx Hl]. rewrite filter_cons, decide_True by done.
    f_equal. by apply IH. }
  rewrite length_take. lia.
Qed.

Lemma filter_length_suffix {A} (P : A → Prop) `{∀ x, Decision (P x)}
    (l : list A) (k : nat) :
  Forall P (drop k l) → (length l - k ≤ length (filter P l))%nat.
Proof.
  intros HP. rewrite <- (take_drop k l) at 2.
  rewrite filter_app, length_app.
  assert (filter P (drop k l) = drop k l) as ->.
  { induction (drop k l) as [|x l' IH]; [done|].
    apply Forall_cons in HP as [Hx Hl]. rewrite filter_cons, decide_True by done.
    f_equal. by apply IH. }
  rewrite length_drop. lia.
Qed.

Lemma StronglySorted_lookup_lt {A} (R : relation A) (l : list A)
    (i j : nat) (x y : A) :
  StronglySorted R l → (i < j)%nat →
  l !! i = Some x → l !! j = Some y → R x y.
Proof.
  intros Hs Hij Hi Hj. rewrite <- (take_drop j l) in Hs.
  apply (StronglySorted_app_1_elem_of R _ _ x y Hs).
  - apply list_elem_of_lookup. exists i. by apply lookup_take_Some.
  - apply list_elem_of_lookup. exists 0%nat.
    by rewrite lookup_drop, Nat.add_0_r.
Qed.

Lemma sorted_middle (l : list Z) :
  l ≠ [] →
  ∃ m, py_index (sorted l) (Z.of_nat (length (sorted l)) `div` 2) = Return m ∧
       m ∈ l ∧
       (length l `div` 2 + 1 ≤ length (filter (λ x : Z, (x <= m)%Z) l))%nat ∧
       (length l - length l `div` 2
        ≤ length (filter (λ x : Z, (m <= x)%Z) l))%nat.
Proof.
  intros Hne. unfold sorted.
  pose proof (merge_sort_Permutation Z.le l) as Hperm.
  pose proof (StronglySorted_merge_sort Z.le l) as Hsorted.
  set (sl := merge_sort Z.le l) in *.
  assert (length sl = length l) as Hlen by (by rewrite Hperm).
  assert (0 < length l)%nat as Hpos by (destruct l; [done|simpl; lia]).
  set (k := (length l `div` 2)%nat).
  assert (k < length l)%nat as Hk by (apply Nat.div_lt; lia).
  assert (Z.of_nat (length sl) `div` 2 = Z.of_nat k) as Hidx.
  { rewrite Hlen. subst k. by rewrite Nat2Z.inj_div. }
  destruct (lookup_lt_is_Some_2 sl k) as [m Hm]; [lia|].
  exists m. split_and!.
  - unfold py_index. cbv zeta. rewrite Hidx.
    rewrite !(proj2 (Z.ltb_ge (Z.of_nat k) 0)) by lia.
    rewrite (proj2 (Z.leb_gt (Z.of_nat (length sl)) (Z.of_nat k))) by lia.
    simpl. by rewrite Nat2Z.id, Hm.
  - rewrite <- Hperm. apply list_elem_of_lookup. by exists k.
  - rewrite <- (Permutation_length (filter_Permutation _ _ _ Hperm)).
    replace (k + 1)%nat with (Datatypes.S k) by lia.
    apply filter_length_prefix; [|lia].
    apply Forall_forall. intros x Hx.
    apply list_elem_of_lookup in Hx as [i Hi].
    apply lookup_take_Some in Hi as [Hi Hik].
    destruct (base.decide (i = k)) as [->|Hne'].
    + rewrite Hm in Hi. injection Hi as ->. lia.
    + apply (StronglySorted_lookup_lt Z.le sl i k x m); [done|lia|done|done].
  - rewrite <- (Permutation_length (filter_Permutation _ _ _ Hperm)).
    rewrite <- Hlen. apply filter_length_suffix.
    apply Forall_forall. intros x Hx.
    apply list_elem_of_lookup in Hx as [i Hi].
    rewrite lookup_drop in Hi.
    destruct i as [|i].
    + rewrite Nat.add_0_r, Hm in Hi. injection Hi as ->. lia.
    + apply (StronglySorted_lookup_lt Z.le sl k (k + Datatypes.S i) m x);
        [done|lia|done|done].
Qed.

(** X9. [get_middle_scores] returns, for each side, a score of that side
    in upper-median position: more than half of the side's scores are at
    most it and at least half are at least it; [0] for a side without
    scores.  With an even number of scores it is the upper of the two
    middle ones. *)
Theorem get_middle_scores_upper_median (r : MatchResult.t) :
  ∃ mid_a mid_b,
    get_middle_scores r = Return (mid_a, mid_b) ∧
    upper_median_or_zero (scores_a r) mid_a ∧
    upper_median_or_zero (scores_b r) mid_b.
Proof.
  unfold get_middle_scores.
  assert (∀ l, ∃ m,
            if_nonempty (sorted l)
              (py_index (sorted l) (Z.of_nat (length (sorted l)) `div` 2)) 0
            = Return m ∧ upper_median_or_zero l m) as H.
  { intros l. destruct (base.decide (l = [])) as [->|Hne]; [by exists 0|].
    destruct (sorted_middle l Hne) as (m & Hm & Hin).
    exists m. split; [|by destruct l].
    destruct (sorted l) eqn:Hs; [|done].
    pose proof (merge_sort_Permutation Z.le l) as Hperm.
    unfold sorted in Hs. rewrite Hs in Hperm.
    by apply Permutation_nil_l in Hperm. }
  destruct (H (scores_a r)) as (ma & -> & Ha).
  destruct (H (scores_b r)) as (mb & -> & Hb).
  by exists ma, mb.
Qed.

End statistics.

(** ** Strategies that coincide *)

Section coinciding.

Lemma last_Forall {A} (P : A → Prop) (l : list A) (x : A) :
  Forall P l → last l = Some x → P x.
Proof.
  intros HP Hl. apply last_Some in Hl as [l' ->].
  apply Forall_app in HP as [_ HP]. by apply Forall_singleton.
Qed.

(** X10. On histories of valid actions the Pavlov agent and the
    win-stay-lose-shift agent are the same strategy: they give the same
    action on every pair of histories, and the Pavlov agent never changes
    its state. *)
Theorem Pavlov_is_WinStayLoseShift (hs ho : list action) :
  Forall (λ a, is_valid a = true) hs →
  Forall (λ a, is_valid a = true) ho →
  PavlovAgent.decide hs ho PavlovAgent.init
  = (WinStayLoseShiftAgent.decide hs ho, PavlovAgent.init) ∧
  PavlovAgent.reset PavlovAgent.init = PavlovAgent.init.
Proof.
  intros Hs Ho. split; [|done].
  unfold PavlovAgent.decide, WinStayLoseShiftAgent.decide.
  destruct (last hs) as [a|] eqn:Ha; [|done].
  destruct (last ho) as [b|] eqn:Hb; [|done].
  pose proof (last_Forall _ _ _ Hs Ha) as Hva.
  pose proof (last_Forall _ _ _ Ho Hb) as Hvb.
  by destruct (is_valid_cases a Hva) as [-> | ->],
              (is_valid_cases b Hvb) as [-> | ->].
Qed.

Lemma RewardPunishment_step hs ho s :
  0 <= RewardPunishmentAgent.punishment_counter s <= 5 →
  Forall (λ a, is_valid a = true) ho →
  (RewardPunishmentAgent.decide hs ho s).1 = TitForTatAgent.decide hs ho ∧
  0 <= RewardPunishmentAgent.punishment_counter
         (RewardPunishmentAgent.decide hs ho s).2 <= 5.
Proof.
  destruct s as [c]. simpl. intros Hc Hho.
  unfold RewardPunishmentAgent.decide, TitForTatAgent.decide. simpl.
  destruct (last ho) as [b|] eqn:Hb; [|split; [done|simpl; lia]].
  pose proof (last_Forall _ _ _ Hho Hb) as Hvb.
  destruct (is_valid_cases b Hvb) as [-> | ->]; simpl;
    [|split; [done|lia]].
  destruct (Z.gtb_spec (Z.min 5 (c + 2)) 0); [split; [done|lia]|lia].
Qed.

Lemma RewardPunishment_decisions_from calls s :
  0 <= RewardPunishmentAgent.punishment_counter s <= 5 →
  Forall (λ c : list action * list action,
            Forall (λ a, is_valid a = true) c.2) calls →
  decisions RewardPunishmentAgent.decide calls s
    = (λ c, TitForTatAgent.decide c.1 c.2) <$> calls ∧
  0 <= RewardPunishmentAgent.punishment_counter
         (state_after RewardPunishmentAgent.decide calls s) <= 5.
Proof.
  revert s. induction calls as [|[hs ho] calls IH]; intros s Hc Hv; [done|].
  apply Forall_cons in Hv as [Hho Hv]. simpl in Hho.
  destruct (RewardPunishment_step hs ho s Hc Hho) as [Ha Hc'].
  cbn [decisions state_after fmap list_fmap fst snd].
  destruct (RewardPunishmentAgent.decide hs ho s) as [a s'].
  simpl in Ha, Hc'. subst a.
  destruct (IH s' Hc' Hv) as [-> ?]. done.
Qed.

(** X11. After a reset the reward-punishment agent answers every call as
    tit-for-tat does, as long as the opponent histories hold valid
    actions: its punishment counter stays between 0 and 5 and never
    changes a decision. *)
Theorem RewardPunishment_is_TitForTat
    (calls : list (list action * list action))
    (s : RewardPunishmentAgent.t) :
  Forall (λ c : list action * list action,
            Forall (λ a, is_valid a = true) c.2) calls →
  decisions RewardPunishmentAgent.decide calls
    (RewardPunishmentAgent.reset s)
    = (λ c, TitForTatAgent.decide c.1 c.2) <$> calls ∧
  0 <= RewardPunishmentAgent.punishment_counter
         (state_after RewardPunishmentAgent.decide calls
            (RewardPunishmentAgent.reset s)) <= 5.
Proof.
  intros Hv. apply RewardPunishment_decisions_from; [simpl; lia|done].
Qed.

End coinciding.

Lemma Pavlov_is_WinStayLoseShift_witness :
  PavlovAgent.decide ["still"; "beat"] ["still"; "beat"] PavlovAgent.init
  = ("still", PavlovAgent.init).
Proof.
  apply (Pavlov_is_WinStayLoseShift ["still"; "beat"] ["still"; "beat"]);
    repeat constructor.
Defined.

Lemma RewardPunishment_is_TitForTat_witness :
  decisions RewardPunishmentAgent.decide
    [([], []); (["still"], ["beat"]); (["still"; "beat"], ["beat"; "still"])]
    (RewardPunishmentAgent.reset (RewardPunishmentAgent.mk 4))
  = ["still"; "beat"; "still"].
Proof.
  apply (RewardPunishment_is_TitForTat
    [([], []); (["still"], ["beat"]); (["still"; "beat"], ["beat"; "still"])]
    (RewardPunishmentAgent.mk 4)).
  repeat constructor.
Defined.

(** ** The grudge *)

Section grudge.
Import GrudgeAgent.

Lemma Grudge_state calls s :
  grudge (state_after decide calls s) = true ↔
  grudge s = true ∨
  Exists (λ c : list action * list action, "beat" ∈ c.2) calls.
Proof.
  revert s. induction calls as [|[hs ho] calls IH]; intros s.
  - simpl. rewrite Exists_nil. tauto.
  - cbn [state_after]. rewrite IH, Exists_cons. unfold decide.
    destruct ho as [|b ho].
    + simpl. split; [tauto|]. intros [?|[H|?]]; auto.
      by apply not_elem_of_nil in H.
    + cbn [snd]. case_bool_decide as Hb; simpl; tauto.
Qed.

(** X12. The grudge agent latches: after a reset it answers "beat" exactly
    when the history it is shown is not empty and some opponent history it
    has been shown since the reset, the current one included, holds a
    "beat"; otherwise it answers "still".  What it held before the reset
    plays no part. *)
Theorem Grudge_latches (calls : list (list action * list action))
    (hs ho : list action) (s : GrudgeAgent.t) :
  (decide hs ho (state_after decide calls (reset s))).1
  = if bool_decide
         (ho ≠ [] ∧
          Exists (λ c : list action * list action, "beat" ∈ c.2)
            (calls ++ [(hs, ho)]))
    then "beat" else "still".
Proof.
  pose proof (Grudge_state calls (reset s)) as Hst.
  assert (Exists (λ c : list action * list action, "beat" ∈ c.2)
            (calls ++ [(hs, ho)])
          ↔ Exists (λ c : list action * list action, "beat" ∈ c.2) calls
            ∨ "beat" ∈ ho) as Hex.
  { rewrite Exists_app, Exists_cons, Exists_nil. simpl. tauto. }
  set (st := state_after decide calls (reset s)) in *.
  unfold decide. destruct ho as [|b ho].
  - by rewrite bool_decide_eq_false_2 by (by intros [? _]).
  - cbn [fst snd].
    destruct (bool_decide ("beat" ∈ b :: ho)) eqn:Hb; simpl.
    + apply bool_decide_eq_true in Hb.
      rewrite bool_decide_eq_true_2; [done|]. split; [done|].
      apply Hex. by right.
    + apply bool_decide_eq_false in Hb.
      destruct (grudge st) eqn:Hg.
      * rewrite bool_decide_eq_true_2; [done|]. split; [done|].
        apply Hex. left. destruct (proj1 Hst eq_refl) as [Hr|Hc]; done.
      * rewrite bool_decide_eq_false_2; [done|].
        intros [_ Hx]. apply Hex in Hx as [Hx|Hx]; [|done].
        by pose proof (proj2 Hst (or_intror Hx)).
Qed.

End grudge.

(** ** Lasting cooperation *)

Section cooperation.
Context {W : Type}.
Variable config : GameConfig.
Variables agent_a agent_b : Agent W.
Variable Inv : W → Prop.
Hypothesis cooperate :
  ∀ (k : nat) (w : W),
    Inv w →
    ∃ w1 w2,
      decide agent_a (replicate k "still") (replicate k "still") w
        = ("still", w1) ∧
      decide agent_b (replicate k "still") (replicate k "still") w1
        = ("still", w2) ∧
      Inv w2.

Import Match.

Lemma rounds_prefix_S (a b : Agent W) (n : nat) (w : W) :
  rounds_prefix config a b (Datatypes.S n) w
  = match rounds_prefix config a b n w with
    | (st, None) => round_body config a b n st
    | (st, Some e) => (st, Some e)
    end.
Proof.
  unfold rounds_prefix. rewrite seq_S, for_each_app. simpl.
  destruct (for_each (seq 0 n) _ _) as [st [e|]]; [done|].
  simpl. by destruct (round_body config a b n st) as [st' [e|]].
Qed.

(** As long as both agents answer "still" to histories of "still", the
    match is one of mutual cooperation. *)
Lemma cooperation_rounds (n : nat) (w : W) :
  Inv w →
  ∃ w',
    rounds_prefix config agent_a agent_b n w
    = ((w', mkFrame (replicate n "still") (replicate n "still")
              (Z.of_nat n * wwin config) (Z.of_nat n * wwin config)), None) ∧
    Inv w'.
Proof.
  intros Hw. induction n as [|n (w' & IH & Hw')].
  - by exists w.
  - destruct (cooperate n w' Hw') as (w1 & w2 & Ha & Hb & Hw2).
    exists w2. split; [|done].
    rewrite rounds_prefix_S, IH. unfold round_body.
    cbn [history_a history_b total_a total_b]. rewrite Ha, Hb.
    change (is_valid "still") with true. cbn [negb orb].
    change (_calculate_reward config "still" "still")
      with (wwin config, wwin config).
    cbv iota beta. rewrite <- !replicate_S_end.
    do 3 f_equal; lia.
Qed.

End cooperation.

Section cooperating_pairs.
Import Match MatchResult.

Lemma beat_not_in_stills (k : nat) : "beat" ∉ replicate k "still".
Proof. intros H. by apply elem_of_replicate in H as [? _]. Qed.

Lemma last_stills (k : nat) :
  last (replicate k "still") = match k with O => None | _ => Some "still" end.
Proof. destruct k; [done|]. by rewrite replicate_S_end, last_snoc. Qed.

(** X13. A run of the grudge agent against the always-cooperating agent is
    mutual cooperation throughout: under a valid configuration within the
    float range [Match.run] returns [num_matches] matches in which both
    sides play "still" in every round and both score
    [rounds_per_match * wwin], whatever the grudge agent held before the
    run. *)
Theorem Grudge_vs_AlwaysStill (config : GameConfig)
    (name_a name_b : option string) (w : GrudgeAgent.t) :
  valid config →
  within_float_range config →
  run_logged config (GrudgeAgent.new name_a (λ s, s) (λ s _, s))
    (AlwaysStillAgent.new name_b) w
  = (Return
       (mk (replicate (Z.to_nat (num_matches config))
              (rounds_per_match config * wwin config))
           (replicate (Z.to_nat (num_matches config))
              (rounds_per_match config * wwin config))
           (replicate (Z.to_nat (num_matches config))
              (replicate (Z.to_nat (rounds_per_match config)) "still"))
           (replicate (Z.to_nat (num_matches config))
              (replicate (Z.to_nat (rounds_per_match config)) "still"))),
     GrudgeAgent.mk false).
Proof.
  intros Hv Hw. pose proof (valid_inv _ Hv) as (_ & _ & _ & HR & HM).
  rewrite run_logged_run by done.
  rewrite (run_constant_reset config
             (GrudgeAgent.new name_a (λ s, s) (λ s _, s))
             (AlwaysStillAgent.new name_b) (GrudgeAgent.mk false)
             (λ _ _ _, eq_refl) w HM eq_refl).
  destruct (cooperation_rounds config
    (GrudgeAgent.new name_a (λ s, s) (λ s _, s))
    (AlwaysStillAgent.new name_b)
    (λ s, GrudgeAgent.grudge s = false)) with
    (n := Z.to_nat (rounds_per_match config)) (w := GrudgeAgent.mk false)
    as (w' & Hrounds & Hw'); [|done|].
  - intros k [g] Hg. simpl in Hg. subst g.
    exists (GrudgeAgent.mk false), (GrudgeAgent.mk false).
    split; [|done]. simpl. unfold GrudgeAgent.decide.
    destruct k as [|k]; [done|].
    rewrite bool_decide_eq_false_2 by apply beat_not_in_stills. done.
  - unfold _run_single_match, range. fold (rounds_prefix config
      (GrudgeAgent.new name_a (λ s, s) (λ s _, s))
      (AlwaysStillAgent.new name_b)
      (Z.to_nat (rounds_per_match config)) (GrudgeAgent.mk false)).
    rewrite Hrounds. cbn [total_a total_b history_a history_b].
    rewrite Z2Nat.id by lia. destruct w' as [g]. simpl in Hw'. by subst g.
Qed.

(** X14. A run of the win-stay-lose-shift agent against another
    win-stay-lose-shift agent is mutual cooperation throughout: under a
    valid configuration within the float range [Match.run] returns, both
    sides play "still" in every round of every match and both score
    [rounds_per_match * wwin]. *)
Theorem WinStayLoseShift_vs_itself {W : Type} (config : GameConfig)
    (name_a name_b : option string) (w : W) :
  valid config →
  within_float_range config →
  run_logged config (WinStayLoseShiftAgent.new name_a)
    (WinStayLoseShiftAgent.new name_b) w
  = (Return
       (mk (replicate (Z.to_nat (num_matches config))
              (rounds_per_match config * wwin config))
           (replicate (Z.to_nat (num_matches config))
              (rounds_per_match config * wwin config))
           (replicate (Z.to_nat (num_matches config))
              (replicate (Z.to_nat (rounds_per_match config)) "still"))
           (replicate (Z.to_nat (num_matches config))
              (replicate (Z.to_nat (rounds_per_match config)) "still"))),
     w).
Proof.
  intros Hv Hw. pose proof (valid_inv _ Hv) as (_ & _ & _ & HR & HM).
  rewrite run_logged_run by done.
  destruct (cooperation_rounds config
    (WinStayLoseShiftAgent.new name_a) (WinStayLoseShiftAgent.new name_b)
    (λ w', w' = w)) with
    (n := Z.to_nat (rounds_per_match config)) (w := w)
    as (w' & Hrounds & ->); [|done|].
  { intros k w1 ->. exists w, w. split_and!; try done.
    all: simpl; unfold WinStayLoseShiftAgent.decide;
      rewrite last_stills; by destruct k. }
  assert (_run_single_match config (WinStayLoseShiftAgent.new (W:=W) name_a)
            (WinStayLoseShiftAgent.new name_b) w
          = ((w, mkFrame
                   (replicate (Z.to_nat (rounds_per_match config)) "still")
                   (replicate (Z.to_nat (rounds_per_match config)) "still")
                   (rounds_per_match config * wwin config)
                   (rounds_per_match config * wwin config)), None))
    as Hsingle.
  { unfold _run_single_match, range. fold (rounds_prefix config
      (WinStayLoseShiftAgent.new (W:=W) name_a)
      (WinStayLoseShiftAgent.new name_b)
      (Z.to_nat (rounds_per_match config)) w).
    rewrite Hrounds. by rewrite Z2Nat.id by lia. }
  rewrite (run_constant_reset config
             (WinStayLoseShiftAgent.new name_a)
             (WinStayLoseShiftAgent.new name_b) w) with (w := w);
    [by rewrite Hsingle| |done|done].
  intros w' f. rewrite Hsingle. by intros [= <- _].
Qed.

End cooperating_pairs.

Lemma Grudge_vs_AlwaysStill_witness :
  run_logged (mkGameConfig 5 3 1 0 4 2)
    (GrudgeAgent.new None (λ s, s) (λ s _, s))
    (AlwaysStillAgent.new None) (GrudgeAgent.mk true)
  = (Return (MatchResult.mk [12; 12] [12; 12]
       [replicate 4 "still"; replicate 4 "still"]
       [replicate 4 "still"; replicate 4 "still"]), GrudgeAgent.mk false).
Proof.
  apply (Grudge_vs_AlwaysStill (mkGameConfig 5 3 1 0 4 2) None None
           (GrudgeAgent.mk true)).
  - reflexivity.
  - vm_compute. reflexivity.
Defined.

Lemma WinStayLoseShift_vs_itself_witness :
  run_logged (mkGameConfig 5 3 1 0 4 2)
    (WinStayLoseShiftAgent.new None) (WinStayLoseShiftAgent.new None) tt
  = (Return (MatchResult.mk [12; 12] [12; 12]
       [replicate 4 "still"; replicate 4 "still"]
       [replicate 4 "still"; replicate 4 "still"]), tt).
Proof.
  apply (WinStayLoseShift_vs_itself (mkGameConfig 5 3 1 0 4 2) None None tt).
  - reflexivity.
  - vm_compute. reflexivity.
Defined.

(** ** The probe of the escape-tiger agent *)

Section escape_tiger.
Import Match MatchResult.
Variable config : GameConfig.
Variables name_a name_b : option string.

Local Abbreviation tiger :=
  (EscapeTigerAgent.new name_a (λ s : EscapeTigerAgent.t, s) (λ s _, s)).
Local Abbreviation still := (AlwaysStillAgent.new (W:=EscapeTigerAgent.t) name_b).

Lemma EscapeTiger_round i s f a s' :
  EscapeTigerAgent.decide (history_a f) (history_b f) s = (a, s') →
  is_valid a = true →
  round_body config tiger still i (s, f)
  = ((s', mkFrame (history_a f ++ [a]) (history_b f ++ ["still"])
            (total_a f + (_calculate_reward config a "still").1)
            (total_b f + (_calculate_reward config a "still").2)), None).
Proof.
  intros Hd Ha. unfold round_body.
  cbn [decide stateful stateless EscapeTigerAgent.new AlwaysStillAgent.new].
  rewrite Hd. unfold AlwaysStillAgent.decide. rewrite Ha.
  change (is_valid "still") with true. cbn [negb orb].
  by destruct (_calculate_reward config a "still").
Qed.

(** The first five rounds are mutual cooperation; the streak counts four
    of them. *)
Lemma EscapeTiger_first_rounds (n : nat) :
  (n ≤ 5)%nat →
  rounds_prefix config tiger still n EscapeTigerAgent.init
  = ((EscapeTigerAgent.mk (Z.of_nat (n - 1)) false false,
      mkFrame (replicate n "still") (replicate n "still")
        (Z.of_nat n * wwin config) (Z.of_nat n * wwin config)), None).
Proof.
  induction n as [|n IH]; intros Hn; [done|].
  rewrite rounds_prefix_S, IH by lia.
  rewrite (EscapeTiger_round _ _ _ "still"
             (EscapeTigerAgent.mk (Z.of_nat (Datatypes.S n - 1)) false false));
    [|cbn [history_a history_b]|done].
  - cbn [history_a history_b total_a total_b].
    change (_calculate_reward config "still" "still")
      with (wwin config, wwin config).
    rewrite <- !replicate_S_end. cbn [fst snd]. do 3 f_equal; lia.
  - unfold EscapeTigerAgent.decide. rewrite !last_stills.
    destruct n as [|n]; [done|].
    cbn [EscapeTigerAgent.test_mode EscapeTigerAgent.exploit_mode
         EscapeTigerAgent.coop_streak].
    rewrite !bool_decide_eq_true_2 by done. cbn [andb].
    destruct (Z.geb_spec (Z.of_nat (Datatypes.S n - 1) + 1) 5); [lia|].
    do 2 f_equal. lia.
Qed.

(** From round six on the agent defects: one probing round, then the
    exploit mode that an always-cooperating opponent never ends. *)
Lemma EscapeTiger_rounds (k : nat) :
  ∃ s,
    rounds_prefix config tiger still (5 + k) EscapeTigerAgent.init
    = ((s, mkFrame (replicate 5 "still" ++ replicate k "beat")
             (replicate (5 + k) "still")
             (5 * wwin config + Z.of_nat k * beat config)
             (5 * wwin config + Z.of_nat k * beaten config)), None) ∧
    match k with
    | O => s = EscapeTigerAgent.mk 4 false false
    | 1%nat => s = EscapeTigerAgent.mk 0 true false
    | _ => s = EscapeTigerAgent.mk 0 false true
    end.
Proof.
  induction k as [|k (s & IH & Hs)].
  - eexists. split; [|done].
    rewrite Nat.add_0_r, EscapeTiger_first_rounds by lia.
    rewrite app_nil_r. do 3 f_equal; lia.
  - replace (5 + Datatypes.S k)%nat with (Datatypes.S (5 + k)) by lia.
    rewrite rounds_prefix_S, IH.
    assert (last (replicate 5 "still" ++ replicate k "beat")
            = Some (match k with O => "still" | _ => "beat" end)) as Hlast.
    { destruct k as [|k]; [done|].
      by rewrite (replicate_S_end k "beat"), app_assoc, last_snoc. }
    exists (match k with
            | O => EscapeTigerAgent.mk 0 true false
            | _ => EscapeTigerAgent.mk 0 false true
            end).
    split; [|by destruct k as [|[|k]]].
    rewrite (EscapeTiger_round _ _ _ "beat"
               (match k with
                | O => EscapeTigerAgent.mk 0 true false
                | _ => EscapeTigerAgent.mk 0 false true
                end)); [|cbn [history_a history_b]|done].
    + cbn [history_a history_b total_a total_b].
      change (_calculate_reward config "beat" "still")
        with (beat config, beaten config).
      cbn [fst snd]. do 2 f_equal. f_equal.
      * by rewrite (replicate_S_end k), app_assoc.
      * by rewrite (replicate_S_end (5 + k)).
      * lia.
      * lia.
    + unfold EscapeTigerAgent.decide. unfold action in *.
      rewrite last_stills, Hlast.
      cbn [Nat.add]. destruct k as [|[|k]]; by subst s.
Qed.

(** X15. Against the always-cooperating agent the escape-tiger agent
    cooperates for five rounds and defects in every round after them: under
    a valid configuration within the float range and with at least five
    rounds, [Match.run] returns and every match of the run gives it
    [5 * wwin + (rounds - 5) * beat] and its opponent
    [5 * wwin + (rounds - 5) * beaten]. *)
Theorem EscapeTiger_vs_AlwaysStill (w : EscapeTigerAgent.t) :
  valid config →
  within_float_range config →
  5 <= rounds_per_match config →
  ∃ w',
    run_logged config tiger still w
    = (Return
         (mk (replicate (Z.to_nat (num_matches config))
                (5 * wwin config
                 + (rounds_per_match config - 5) * beat config))
             (replicate (Z.to_nat (num_matches config))
                (5 * wwin config
                 + (rounds_per_match config - 5) * beaten config))
             (replicate (Z.to_nat (num_matches config))
                (replicate 5 "still"
                 ++ replicate (Z.to_nat (rounds_per_match config - 5))
                      "beat"))
             (replicate (Z.to_nat (num_matches config))
                (replicate (Z.to_nat (rounds_per_match config)) "still"))),
       w').
Proof.
  intros Hv Hw HR. pose proof (valid_inv _ Hv) as (_ & _ & _ & _ & HM).
  rewrite run_logged_run by done.
  destruct (EscapeTiger_rounds (Z.to_nat (rounds_per_match config - 5)))
    as (s & Hrounds & _).
  replace (5 + Z.to_nat (rounds_per_match config - 5))%nat
    with (Z.to_nat (rounds_per_match config)) in Hrounds by lia.
  rewrite Z2Nat.id in Hrounds by lia.
  exists s.
  rewrite (run_constant_reset config tiger still EscapeTigerAgent.init
             (λ _ _ _, eq_refl) w HM eq_refl).
  unfold _run_single_match, range.
  fold (rounds_prefix config tiger still
          (Z.to_nat (rounds_per_match config)) EscapeTigerAgent.init).
  by rewrite Hrounds.
Qed.

End escape_tiger.

Lemma EscapeTiger_vs_AlwaysStill_witness :
  ∃ w',
    run_logged (mkGameConfig 5 3 1 0 8 1)
      (EscapeTigerAgent.new None (λ s, s) (λ s _, s))
      (AlwaysStillAgent.new None) EscapeTigerAgent.init
    = (Return (MatchResult.mk [30] [15]
         [["still"; "still"; "still"; "still"; "still";
           "beat"; "beat"; "beat"]]
         [replicate 8 "still"]), w').
Proof.
  apply (EscapeTiger_vs_AlwaysStill (mkGameConfig 5 3 1 0 8 1) None None
           EscapeTigerAgent.init);
    [reflexivity | vm_compute; reflexivity | simpl; lia].
Defined.

(** ** The gradual agent *)

Section gradual.
Import GradualAgent.

(** X16. [GradualAgent.decide] raises exactly when it is given an empty
    history of its own together with an opponent history that ends in
    "beat" (it then reads [history_self[-1]]); what it raises is an
    [IndexError], raised before the state is touched.  On histories of
    equal length, as the match engine passes them, it returns. *)
Theorem Gradual_decide_raises (hs ho : list action) (s : GradualAgent.t) :
  (raises (decide hs ho s).1 ↔ hs = [] ∧ last ho = Some "beat") ∧
  (∀ e, (decide hs ho s).1 = Raise e →
        e = IndexError ∧ (decide hs ho s).2 = s) ∧
  (length hs = length ho → returns (decide hs ho s).1).
Proof.
  assert (∀ s1 : GradualAgent.t,
            returns ((if revenge_counter s1 >? 0
                      then (Return "beat",
                            mk (revenge_counter s1 - 1) (defect_count s1))
                      else (Return "still", s1)) : py action * t).1) as Hrev.
  { intros s1. destruct (revenge_counter s1 >? 0); by eexists. }
  assert (∀ r : py action, returns r → ¬ raises r) as Hnr.
  { intros r [a ->] [e He]. discriminate. }
  unfold decide.
  destruct (last ho) as [b|] eqn:Hb.
  - case_bool_decide as Hbeat.
    + subst b. destruct (last hs) as [a|] eqn:Ha.
      * assert (hs ≠ []) as Hne by (intros ->; discriminate).
        assert (returns ((if bool_decide (a = "still")
                 then if revenge_counter (mk (defect_count s + 1)
                                             (defect_count s + 1)) >? 0
                      then (Return "beat",
                            mk (revenge_counter (mk (defect_count s + 1)
                                                    (defect_count s + 1)) - 1)
                               (defect_count (mk (defect_count s + 1)
                                                 (defect_count s + 1))))
                      else (Return "still",
                            mk (defect_count s + 1) (defect_count s + 1))
                 else if revenge_counter s >? 0
                      then (Return "beat",
                            mk (revenge_counter s - 1) (defect_count s))
                      else (Return "still", s)) : py action * t).1) as Hret.
        { case_bool_decide; apply Hrev. }
        split_and!.
        -- split; [intros Hr; by apply Hnr in Hret|by intros [? _]].
        -- intros e He. destruct Hret as [x Hx]. rewrite Hx in He.
           discriminate.
        -- done.
      * apply last_None in Ha as ->. simpl. split_and!.
        -- split; [done|]. intros _. by eexists.
        -- by intros e [= <-].
        -- intros Hlen. symmetry in Hlen. simpl in Hlen.
           apply length_zero_iff_nil in Hlen as ->. discriminate.
    + split_and!.
      * split; [intros Hr; by apply Hnr in Hr; [|apply Hrev]|].
        intros [_ [= ->]]. done.
      * intros e He. destruct (Hrev s) as [x Hx]. rewrite Hx in He.
        discriminate.
      * intros _. apply Hrev.
  - simpl. split_and!.
    + split; [intros [e He]; discriminate|by intros [_ ?]].
    + intros e He. discriminate.
    + intros _. by eexists.
Qed.

(** X17. The gradual agent keeps its revenge within what it has counted:
    a call that returns leaves [0 <= revenge_counter <= defect_count] in
    force, raises [defect_count] by at most one, and answers "still" to an
    opponent history that does not end in "beat" when no revenge is
    pending. *)
Theorem Gradual_counters (hs ho : list action) (s : GradualAgent.t) :
  0 <= revenge_counter s <= defect_count s →
  0 <= revenge_counter (decide hs ho s).2 <= defect_count (decide hs ho s).2 ∧
  defect_count s <= defect_count (decide hs ho s).2 <= defect_count s + 1 ∧
  (revenge_counter s = 0 → last ho ≠ Some "beat" →
   decide hs ho s = (Return "still", s)).
Proof.
  intros Hinv. unfold decide.
  destruct (last ho) as [b|] eqn:Hb; [|simpl; split_and!; try lia; done].
  case_bool_decide as Hbeat.
  - subst b. destruct (last hs) as [a|]; [|simpl; split_and!; try lia; done].
    case_bool_decide; simpl.
    + destruct (Z.gtb_spec (defect_count s + 1) 0); simpl;
        split_and!; try lia; done.
    + destruct (Z.gtb_spec (revenge_counter s) 0); simpl;
        split_and!; try lia; done.
  - destruct (Z.gtb_spec (revenge_counter s) 0); simpl;
      split_and!; try lia; try done.
Qed.

End gradual.

Lemma Gradual_counters_witness :
  GradualAgent.decide ["still"] ["still"] (GradualAgent.mk 0 3)
  = (Return "still", GradualAgent.mk 0 3).
Proof.
  apply (Gradual_counters ["still"] ["still"] (GradualAgent.mk 0 3));
    [simpl; lia|reflexivity|discriminate].
Defined.

Lemma Gradual_decide_raises_witness :
  raises (GradualAgent.decide [] ["beat"] GradualAgent.init).1 ∧
  returns (GradualAgent.decide ["still"] ["beat"] GradualAgent.init).1.
Proof.
  split.
  - apply (proj1 (Gradual_decide_raises [] ["beat"] GradualAgent.init)).
    by split.
  - by apply (proj2 (proj2 (Gradual_decide_raises ["still"] ["beat"]
                              GradualAgent.init))).
Defined.

(** ** Strategies that are never the first to defect *)

Section nice.

Lemma last_all_still (ho : list action) :
  Forall (λ a, a = "still") ho → last ho = None ∨ last ho = Some "still".
Proof.
  intros H. destruct (last ho) as [a|] eqn:Ha; [|by left].
  right. f_equal. by apply (last_Forall _ _ _ H Ha).
Qed.

Lemma beat_not_in_all_still (ho : list action) :
  Forall (λ a, a = "still") ho → "beat" ∉ ho.
Proof.
  intros H Hin. rewrite Forall_forall in H. by apply H in Hin.
Qed.

Lemma filter_none {A} (P : A → Prop) `{∀ x, Decision (P x)} (l : list A) :
  Forall (λ x, ¬ P x) l → filter P l = [].
Proof.
  induction 1 as [|x l Hx _ IH]; [done|].
  by rewrite filter_cons, decide_False.
Qed.

Lemma PunishmentEscalation_still calls s :
  PunishmentEscalationAgent.punishment_streak s <= 0 →
  Forall (λ c : list action * list action,
            Forall (λ a, a = "still") c.2) calls →
  decisions PunishmentEscalationAgent.decide calls s
  = replicate (length calls) "still".
Proof.
  revert s. induction calls as [|[hs ho] calls IH]; intros s Hs Hc; [done|].
  apply Forall_cons in Hc as [Hho Hc]. simpl in Hho.
  cbn [decisions length replicate].
  assert (PunishmentEscalationAgent.decide hs ho s = ("still", s)) as ->.
  { unfold PunishmentEscalationAgent.decide.
    destruct (last_all_still ho Hho) as [-> | ->]; [done|].
    destruct (Z.gtb_spec (PunishmentEscalationAgent.punishment_streak s) 0);
      [lia|done]. }
  f_equal. by apply IH.
Qed.

Lemma Grudge_still calls s :
  GrudgeAgent.grudge s = false →
  Forall (λ c : list action * list action,
            Forall (λ a, a = "still") c.2) calls →
  decisions GrudgeAgent.decide calls s = replicate (length calls) "still".
Proof.
  revert s. induction calls as [|[hs ho] calls IH]; intros s Hs Hc; [done|].
  apply Forall_cons in Hc as [Hho Hc]. simpl in Hho.
  cbn [decisions length replicate].
  assert (GrudgeAgent.decide hs ho s = ("still", s)) as ->.
  { unfold GrudgeAgent.decide. destruct ho as [|b ho]; [done|].
    rewrite bool_decide_eq_false_2 by (by apply beat_not_in_all_still).
    by rewrite Hs. }
  f_equal. by apply IH.
Qed.

(** X18. Tit-for-tat, forgiving tit-for-tat, the grudge agent, the
    reward-punishment agent and the punishment-escalation agent are never
    the first to defect: as long as every opponent history they are shown
    holds only "still", each of them answers "still" (the three with state
    counted from a reset). *)
Theorem never_first_to_defect
    (calls : list (list action * list action))
    (g : GrudgeAgent.t) (r : RewardPunishmentAgent.t)
    (p : PunishmentEscalationAgent.t) :
  Forall (λ c : list action * list action,
            Forall (λ a, a = "still") c.2) calls →
  (λ c, TitForTatAgent.decide c.1 c.2) <$> calls
    = replicate (length calls) "still" ∧
  (λ c, ForgivingTitForTatAgent.decide c.1 c.2) <$> calls
    = replicate (length calls) "still" ∧
  decisions GrudgeAgent.decide calls (GrudgeAgent.reset g)
    = replicate (length calls) "still" ∧
  decisions RewardPunishmentAgent.decide calls (RewardPunishmentAgent.reset r)
    = replicate (length calls) "still" ∧
  decisions PunishmentEscalationAgent.decide calls
    (PunishmentEscalationAgent.reset p)
    = replicate (length calls) "still".
Proof.
  intros Hc.
  assert ((λ c : list action * list action, TitForTatAgent.decide c.1 c.2)
            <$> calls = replicate (length calls) "still") as Htft.
  { induction calls as [|[hs ho] calls IH]; [done|].
    apply Forall_cons in Hc as [Hho Hc]. simpl in Hho. simpl. f_equal.
    - unfold TitForTatAgent.decide.
      by destruct (last_all_still ho Hho) as [-> | ->].
    - by apply IH. }
  split_and!.
  - done.
  - clear Htft. induction calls as [|[hs ho] calls IH]; [done|].
    apply Forall_cons in Hc as [Hho Hc]. simpl in Hho. simpl. f_equal.
    + unfold ForgivingTitForTatAgent.decide,
        ForgivingTitForTatAgent.recent_beats.
      case_bool_decide; [done|].
      rewrite bool_decide_eq_false_2; [done|].
      assert (filter (λ a, a = "beat") (py_slice ho (Some (-3)) None) = [])
        as ->; [|simpl; lia].
      apply filter_none. unfold py_slice.
      apply Forall_take, Forall_drop.
      eapply Forall_impl; [exact Hho|]. by intros a ->.
    + by apply IH.
  - by apply Grudge_still.
  - destruct (RewardPunishment_decisions_from calls
      (RewardPunishmentAgent.reset r)) as [-> _]; [simpl; lia| |done].
    eapply Forall_impl; [exact Hc|]. intros c Hs.
    eapply Forall_impl; [exact Hs|]. by intros a ->.
  - apply PunishmentEscalation_still; [simpl; lia|done].
Qed.

End nice.

Lemma never_first_to_defect_witness :
  decisions PunishmentEscalationAgent.decide
    [([], []); (["still"], ["still"])]
    (PunishmentEscalationAgent.reset (PunishmentEscalationAgent.mk 7 3))
  = ["still"; "still"].
Proof.
  apply (never_first_to_defect [([], []); (["still"], ["still"])]
           (GrudgeAgent.mk true) (RewardPunishmentAgent.mk 5)
           (PunishmentEscalationAgent.mk 7 3)).
  repeat constructor.
Defined.

(** ** What the Hybrid agent ends up playing *)

Section hybrid_more.
Import HybridAgent HybridSpec.

Lemma foldl_add_lt (g1 g2 : nat → Z) (l : list nat) (a1 a2 : Z) :
  a1 < a2 →
  (∀ i, i ∈ l → g1 i <= g2 i) →
  foldl (λ acc i, acc + g1 i) a1 l < foldl (λ acc i, acc + g2 i) a2 l.
Proof.
  revert a1 a2. induction l as [|i l IH]; intros a1 a2 Ha Hg; [done|].
  simpl. apply IH.
  - pose proof (Hg i ltac:(left)). lia.
  - intros j Hj. apply Hg. by right.
Qed.

Lemma hardcoded_still_lt_beat (o : action) :
  is_valid o = true →
  table_payoff hardcoded "still" o < table_payoff hardcoded "beat" o.
Proof. intros Ho. by destruct (is_valid_cases o Ho) as [-> | ->]. Qed.

Lemma hardcoded_le_beat (a o : action) :
  is_valid a = true → is_valid o = true →
  table_payoff hardcoded a o <= table_payoff hardcoded "beat" o.
Proof.
  intros Ha Ho.
  by destruct (is_valid_cases a Ha) as [-> | ->],
              (is_valid_cases o Ho) as [-> | ->].
Qed.

(** Under the values written in the code, always-defect scores strictly
    highest on every window of ten valid opponent actions. *)
Lemma always_beat_scores_highest (ho : list action) (c : strategy) :
  Forall (λ a, is_valid a = true) ho → (10 ≤ length ho)%nat →
  c ≠ always_beat →
  retrospective_score hardcoded c (last_ten ho)
  < retrospective_score hardcoded always_beat (last_ten ho).
Proof.
  intros Hv Hlen Hc. unfold retrospective_score.
  change (seq 0 10) with (0%nat :: seq 1 9). cbn [foldl].
  apply (foldl_add_lt
    (λ i, table_payoff hardcoded (candidate_action c (last_ten ho) i)
            (last_ten ho !!! i))
    (λ i, table_payoff hardcoded
            (candidate_action always_beat (last_ten ho) i)
            (last_ten ho !!! i))).
  - destruct (last_ten_valid ho 0 Hv Hlen ltac:(lia)) as [Ho _].
    pose proof (hardcoded_still_lt_beat _ Ho).
    destruct c; simpl; try done; lia.
  - intros i Hi. apply elem_of_seq in Hi.
    destruct (last_ten_valid ho i Hv Hlen ltac:(lia)) as [Ho _].
    apply hardcoded_le_beat; [|done].
    apply candidate_action_valid; [done|done|lia].
Qed.

Lemma _evaluate_strategies_always_beat hs ho s :
  Forall (λ a, is_valid a = true) ho → (10 < length ho)%nat →
  current_strategy (_evaluate_strategies hs ho s) = always_beat.
Proof.
  intros Hv Hlen.
  destruct (_evaluate_strategies_spec hs ho s Hv Hlen)
    as (_ & [Hmax _] & _).
  destruct (base.decide (current_strategy (_evaluate_strategies hs ho s)
                         = always_beat)) as [|Hne]; [done|].
  pose proof (always_beat_scores_highest ho _ Hv ltac:(lia) Hne).
  specialize (Hmax always_beat). simpl in Hmax. lia.
Qed.

(** What a call that re-evaluates returns. *)
Lemma decide_reevaluates (hs ho : list action) (s : HybridAgent.t) :
  rounds s + 1 - last_switch s >= 10 →
  decide hs ho s
  = let s' := _evaluate_strategies hs ho
                (mk (current_strategy s) (strategy_performance s)
                    (rounds s + 1) (last_switch s)) in
    (strategies (current_strategy s') hs ho,
     mk (current_strategy s') (strategy_performance s') (rounds s')
        (rounds s')).
Proof.
  intros Htrig. unfold decide. cbn [rounds last_switch].
  by rewrite (proj2 (Z.geb_le _ _)) by lia.
Qed.

(** X19. A re-evaluation of the Hybrid agent that finds more than ten
    valid opponent actions always selects always-defect, whatever the
    opponent did: the call answers "beat" and leaves always-defect as the
    current strategy. *)
Theorem Hybrid_reevaluation_selects_always_beat
    (hs ho : list action) (s : HybridAgent.t) :
  Forall (λ a, is_valid a = true) ho →
  (10 < length ho)%nat →
  rounds s + 1 - last_switch s >= 10 →
  (decide hs ho s).1 = "beat" ∧
  current_strategy (decide hs ho s).2 = always_beat.
Proof.
  intros Hv Hlen Htrig. rewrite decide_reevaluates by done.
  cbv zeta. cbn [fst snd current_strategy].
  by rewrite _evaluate_strategies_always_beat.
Qed.

Lemma decisions_snoc {St}
    (dec : list action → list action → St → action * St) calls hs ho s :
  decisions dec (calls ++ [(hs, ho)]) s
  = decisions dec calls s ++ [(dec hs ho (state_after dec calls s)).1].
Proof.
  revert s. induction calls as [|[hs' ho'] calls IH]; intros s; simpl.
  - by destruct (dec hs ho s).
  - destruct (dec hs' ho' s) as [a s']. simpl. by rewrite IH.
Qed.

Lemma decide_current hs ho s :
  (decide hs ho s).1 = strategies (current_strategy (decide hs ho s).2) hs ho ∧
  (rounds s + 1 - last_switch s < 10 →
   current_strategy (decide hs ho s).2 = current_strategy s) ∧
  ((length ho < 10)%nat →
   current_strategy (decide hs ho s).2 = current_strategy s).
Proof.
  unfold decide. cbn [rounds last_switch]. split_and!.
  - done.
  - intros H. by destruct (Z.geb_spec (rounds s + 1 - last_switch s) 10);
      [lia|].
  - intros H. destruct (rounds s + 1 - last_switch s >=? 10); [|done].
    by rewrite _evaluate_strategies_short.
Qed.

(** The Hybrid agent in a match: the histories passed to call [i]
    (from 0) hold [i] valid actions. *)
Lemma Hybrid_in_a_match_state calls s0 :
  (∀ i hs ho, calls !! i = Some (hs, ho) →
              length ho = i ∧ Forall (λ a, is_valid a = true) ho) →
  decisions decide calls (reset s0)
  = imap (λ i c, if bool_decide (i < 19)%nat
                 then TitForTatAgent.decide c.1 c.2 else "beat") calls ∧
  current_strategy (state_after decide calls (reset s0))
  = if bool_decide (length calls < 20)%nat then tit_for_tat else always_beat.
Proof.
  induction calls as [|[hs ho] calls IH] using rev_ind; intros Hcalls;
    [done|].
  destruct IH as [IHd IHc].
  { intros i hs' ho' Hi. apply (Hcalls i hs' ho').
    by apply lookup_app_l_Some. }
  destruct (Hcalls (length calls) hs ho) as [Hlen Hv].
  { by rewrite lookup_app_r, Nat.sub_diag by lia. }
  destruct (Hybrid_counters calls s0) as [Hr Hl].
  set (st := state_after decide calls (reset s0)) in *.
  set (n := length calls) in *.
  destruct (decide_current hs ho st) as (Hact & Hkeep & Hshort).
  assert (0 <= Z.of_nat n) as Hn0 by lia.
  pose proof (Z.div_mod (Z.of_nat n) 10 ltac:(lia)) as Hdm.
  pose proof (Z.mod_pos_bound (Z.of_nat n) 10 ltac:(lia)) as Hmod.
  assert (current_strategy (decide hs ho st).2
          = (if bool_decide (n + 1 < 20)%nat
             then tit_for_tat else always_beat)
          ∧ (decide hs ho st).1
            = (if bool_decide (n < 19)%nat
               then TitForTatAgent.decide hs ho else "beat")) as [Hc' Ha'].
  { destruct (Z.lt_ge_cases (rounds st + 1 - last_switch st) 10) as [Hno|Htr].
    - (* no re-evaluation: [n mod 10 <> 9] *)
      rewrite Hact, (Hkeep Hno), IHc.
      assert (n ≠ 19%nat) by (intros Heq; rewrite Heq in *; simpl in *; lia).
      repeat case_bool_decide; try lia; done.
    - destruct (base.decide (n < 10)%nat) as [Hlt|Hge].
      + rewrite Hact, (Hshort ltac:(lia)), IHc.
        repeat case_bool_decide; try lia; done.
      + assert (19 ≤ n)%nat.
        { destruct (base.decide (19 ≤ n)%nat); [done|].
          assert (Z.of_nat n `div` 10 = 1) as Hq.
          { symmetry. apply (Z.div_unique (Z.of_nat n) 10 1
                               (Z.of_nat n - 10)); lia. }
          rewrite Hq in *. lia. }
        rewrite decide_reevaluates by lia.
        cbv zeta. cbn [fst snd current_strategy].
        rewrite _evaluate_strategies_always_beat by (done || lia).
        repeat case_bool_decide; try lia; done. }
  split.
  - rewrite decisions_snoc, imap_app, IHd. fold st n. rewrite Ha'.
    f_equal. cbn [imap fst snd]. by rewrite Nat.add_0_r.
  - rewrite state_after_snoc, length_app. fold st n. by rewrite Hc'.
Qed.

(** X20. In a match (the histories of call [i] hold [i] valid actions)
    the Hybrid agent is tit-for-tat for its first 19 rounds and answers
    "beat" in every round from the 20th on, whatever the opponent does:
    the re-evaluation of round 10 finds too little history, and every
    later one selects always-defect. *)
Theorem Hybrid_in_a_match (calls : list (list action * list action))
    (s0 : HybridAgent.t) :
  (∀ i hs ho, calls !! i = Some (hs, ho) →
              length ho = i ∧ Forall (λ a, is_valid a = true) ho) →
  decisions decide calls (reset s0)
  = imap (λ i c, if bool_decide (i < 19)%nat
                 then TitForTatAgent.decide c.1 c.2 else "beat") calls.
Proof. intros H. by apply Hybrid_in_a_match_state. Qed.

End hybrid_more.

Lemma Hybrid_reevaluation_selects_always_beat_witness :
  (HybridAgent.decide (replicate 19 "still") (replicate 19 "still")
     (HybridAgent.mk HybridAgent.tit_for_tat HybridAgent.zero_performance
        19 10)).1 = "beat".
Proof.
  apply (Hybrid_reevaluation_selects_always_beat
           (replicate 19 "still") (replicate 19 "still")
           (HybridAgent.mk HybridAgent.tit_for_tat
              HybridAgent.zero_performance 19 10)).
  - by apply Forall_replicate.
  - simpl. lia.
  - simpl. lia.
Defined.

Lemma Hybrid_in_a_match_witness :
  decisions HybridAgent.decide
    ((λ i : nat, (replicate i "still", replicate i "still")) <$> seq 0 21)
    (HybridAgent.reset HybridAgent.init)
  = replicate 19 "still" ++ ["beat"; "beat"].
Proof.
  rewrite (Hybrid_in_a_match
             ((λ i : nat, (replicate i "still", replicate i "still"))
                <$> seq 0 21) HybridAgent.init); [reflexivity|].
  intros i hs ho Hi. rewrite list_lookup_fmap in Hi.
  destruct (seq 0 21 !! i) as [j|] eqn:Hj; [|discriminate].
  apply lookup_seq in Hj as [-> _]. simpl in Hi. injection Hi as <- <-.
  split; [apply length_replicate|by apply Forall_replicate].
Defined.

(** ** The pattern detector *)

Section pattern_detector.
Import PatternDetectorAgent.

Lemma py_slice_last_three_beats (n : nat) :
  (3 ≤ n)%nat →
  py_slice (replicate n "beat") (Some (- 3)) None = replicate 3 "beat".
Proof.
  intros Hn. unfold py_slice. rewrite length_replicate.
  change (-3 <? 0) with true. cbv iota.
  rewrite drop_replicate, take_replicate.
  f_equal. lia.
Qed.

Lemma py_slice_prefix_from_zero {A} (l : list A) (k : nat) :
  py_slice l (Some 0) (Some (Z.of_nat k)) = take k l.
Proof.
  unfold py_slice. change (0 <? 0) with false. cbv iota.
  destruct (Z.ltb_spec (Z.of_nat k) 0) as [?|_]; [lia|].
  replace (Z.to_nat (Z.max 0 (Z.min (Z.of_nat (length l)) 0))) with 0%nat
    by lia.
  rewrite drop_0.
  destruct (Nat.le_gt_cases k (length l)).
  - f_equal. lia.
  - rewrite !take_ge by lia. done.
Qed.

Lemma search_all_still ho recent pl indices :
  Forall (λ a, a = "still") ho →
  search ho recent pl indices = "still".
Proof.
  intros Hho. induction indices as [|i indices IH]; [done|]. simpl.
  rewrite (bool_decide_eq_false_2 (_ !! _ = Some "beat")).
  - by rewrite andb_false_r.
  - intros Hl. apply (beat_not_in_all_still ho Hho).
    apply list_elem_of_lookup. by eexists.
Qed.

(** X21. The pattern detector needs seven opponent actions before it can
    answer "beat": with six or fewer it answers "still" (its search loop
    is empty), as it does on every opponent history of "still" only;
    against an opponent that has played "beat" seven or more times and
    nothing else it answers "beat".  It never changes its state. *)
Theorem PatternDetector_decide (hs ho : list action) :
  ((length ho ≤ 6)%nat → decide hs ho init = ("still", init)) ∧
  (Forall (λ a, a = "still") ho → decide hs ho init = ("still", init)) ∧
  (∀ n, (7 ≤ n)%nat → ho = replicate n "beat" →
        decide hs ho init = ("beat", init)).
Proof.
  unfold decide. cbn [pattern_length init]. split_and!.
  - intros Hlen. destruct (Z.ltb_spec (Z.of_nat (length ho)) (3 + 1));
      [done|].
    unfold range.
    by replace (Z.to_nat (Z.of_nat (length ho) - 3 * 2)) with 0%nat by lia.
  - intros Hho. destruct (Z.of_nat (length ho) <? 3 + 1); [done|].
    by rewrite search_all_still.
  - intros n Hn ->. rewrite length_replicate.
    destruct (Z.ltb_spec (Z.of_nat n) (3 + 1)); [lia|].
    unfold range.
    replace (Z.to_nat (Z.of_nat n - 3 * 2))
      with (Datatypes.S (n - 7)) by lia.
    cbn [seq search].
    change (Z.of_nat 0 + 3) with (Z.of_nat 3).
    change (Z.of_nat 0) with 0.
    change (- (3)) with (-3).
    rewrite py_slice_last_three_beats by lia.
    rewrite (py_slice_prefix_from_zero _ 3).
    rewrite take_replicate, Nat.min_l by lia.
    rewrite bool_decide_eq_true_2 by done.
    rewrite bool_decide_eq_true_2; [done|].
    apply lookup_replicate_2. lia.
Qed.

End pattern_detector.

Lemma PatternDetector_decide_witness :
  PatternDetectorAgent.decide [] (replicate 7 "beat") PatternDetectorAgent.init
  = ("beat", PatternDetectorAgent.init) ∧
  PatternDetectorAgent.decide [] (replicate 6 "beat") PatternDetectorAgent.init
  = ("still", PatternDetectorAgent.init).
Proof.
  split.
  - apply (proj2 (proj2 (PatternDetector_decide [] (replicate 7 "beat")))
             7%nat); [lia|done].
  - apply (proj1 (PatternDetector_decide [] (replicate 6 "beat"))).
    simpl. lia.
Defined.

(** ** Names in a roster *)

Section roster_more.
Context {W : Type}.
Import Tournament.

(** X22. A roster of at least two agents whose names are pairwise
    different is taken as it is: [Tournament.__init__] renames no agent. *)
Theorem Tournament_init_distinct_names (config : GameConfig)
    (agents : list (Agent W)) :
  (2 ≤ length agents)%nat →
  NoDup (name <$> agents) →
  init config agents = Return (mk config agents).
Proof.
  intros Hlen Hnd. unfold init, _validate_agents.
  rewrite bool_decide_eq_false_2 by lia.
  rewrite bool_decide_eq_false_2; [done|].
  intros Hne. apply Hne. by apply size_list_to_set_NoDup.
Qed.

Lemma append_suffix_neq (n : string) : n +:+ "_1" ≠ n.
Proof. induction n as [|c n IH]; [done|]. simpl. by intros [= ?]. Qed.

(** X23. The renaming does not make the names unique: when two agents
    share a name [Name] and a later agent is already called [Name_1], the
    second of the two is renamed to [Name_1] and the roster ends with two
    agents called [Name_1]. *)
Theorem Tournament_init_name_clash (config : GameConfig)
    (a b c : Agent W) :
  name b = name a →
  name c = name a +:+ "_1" →
  ∃ self,
    init config [a; b; c] = Return self ∧
    name <$> agents self
    = [name a; name a +:+ "_1"; name a +:+ "_1"] ∧
    ¬ NoDup (name <$> agents self).
Proof.
  intros Hb Hc.
  exists (mk config [a; set_name b (name a +:+ "_1"); c]).
  split_and!.
  - unfold init, _validate_agents.
    rewrite bool_decide_eq_false_2 by (simpl; lia).
    rewrite bool_decide_eq_true_2.
    + unfold enumerate. cbn [length seq zip_with foldl rename_step].
      rewrite lookup_empty. cbn [rename_step].
      rewrite Hb, lookup_insert_eq. cbn [rename_step].
      rewrite Hc, !lookup_insert_ne, lookup_empty
        by (intros Heq; by apply (append_suffix_neq (name a))).
      done.
    + intros Heq. apply size_list_to_set_NoDup in Heq.
      simpl in Heq. rewrite Hb in Heq.
      apply NoDup_cons in Heq as [Hnin _]. apply Hnin. by left.
  - simpl. by rewrite Hc.
  - simpl. rewrite Hc. intros Hnd.
    apply NoDup_cons in Hnd as [_ Hnd].
    apply NoDup_cons in Hnd as [Hnin _]. apply Hnin. by left.
Qed.

End roster_more.

Lemma Tournament_init_distinct_names_witness :
  Tournament.init (mkGameConfig 5 3 1 0 3 2)
    [TitForTatAgent.new (W:=unit) None; AlwaysBeatAgent.new None]
  = Return (Tournament.mk (mkGameConfig 5 3 1 0 3 2)
      [TitForTatAgent.new (W:=unit) None; AlwaysBeatAgent.new None]).
Proof.
  apply (Tournament_init_distinct_names (mkGameConfig 5 3 1 0 3 2)
    [TitForTatAgent.new (W:=unit) None; AlwaysBeatAgent.new None]).
  - simpl. lia.
  - simpl. apply NoDup_cons. split.
    + intros Hin. apply elem_of_cons in Hin as [Heq|Hin];
        [discriminate|by apply not_elem_of_nil in Hin].
    + apply NoDup_singleton.
Defined.

Lemma Tournament_init_name_clash_witness :
  ∃ self,
    Tournament.init (mkGameConfig 5 3 1 0 3 2)
      [TitForTatAgent.new (W:=unit) (Some "X");
       AlwaysBeatAgent.new (Some "X");
       AlwaysStillAgent.new (Some "X_1")] = Return self ∧
    name <$> Tournament.agents self = ["X"; "X_1"; "X_1"] ∧
    ¬ NoDup (name <$> Tournament.agents self).
Proof.
  apply (Tournament_init_name_clash (mkGameConfig 5 3 1 0 3 2)
    (TitForTatAgent.new (W:=unit) (Some "X"))
    (AlwaysBeatAgent.new (Some "X"))
    (AlwaysStillAgent.new (Some "X_1"))); reflexivity.
Defined.

(** ** Concrete instances of the engine properties *)

Lemma _calculate_reward_symmetric_witness :
  Match._calculate_reward (mkGameConfig 5 3 1 0 3 2) "still" "beat"
  = ((Match._calculate_reward (mkGameConfig 5 3 1 0 3 2) "beat" "still").2,
     (Match._calculate_reward (mkGameConfig 5 3 1 0 3 2) "beat" "still").1).
Proof.
  apply (proj1 (_calculate_reward_symmetric (mkGameConfig 5 3 1 0 3 2)
                  "beat" "still")); reflexivity.
Defined.

Lemma Match_run_score_bounds_witness :
  Forall (λ s, 3 * 0 <= s <= 3 * 5) [2; 2] ∧
  Forall (λ s, 3 * 0 <= s <= 3 * 5) [7; 7].
Proof.
  apply (Match_run_score_bounds (mkGameConfig 5 3 1 0 3 2)
    (TitForTatAgent.new None) (AlwaysBeatAgent.new None) tt
    (MatchResult.mk [2; 2] [7; 7]
       [["still"; "beat"; "beat"]; ["still"; "beat"; "beat"]]
       [["beat"; "beat"; "beat"]; ["beat"; "beat"; "beat"]]) tt);
    reflexivity.
Defined.

Lemma Match_run_scores_replay_witness :
  [(2, 7); (2, 7)]
  = (λ h : list action * list action,
       replay (mkGameConfig 5 3 1 0 3 2) h.1 h.2)
      <$> [(["still"; "beat"; "beat"], ["beat"; "beat"; "beat"]);
           (["still"; "beat"; "beat"], ["beat"; "beat"; "beat"])].
Proof.
  apply (Match_run_scores_replay (mkGameConfig 5 3 1 0 3 2)
    (TitForTatAgent.new None) (AlwaysBeatAgent.new None) tt
    (MatchResult.mk [2; 2] [7; 7]
       [["still"; "beat"; "beat"]; ["still"; "beat"; "beat"]]
       [["beat"; "beat"; "beat"]; ["beat"; "beat"; "beat"]]) tt).
  reflexivity.
Defined.
